(** * Localization extraction: a shallow embedding of the extractor

    The development follows the TypeScript module that scans source files
    for [nls.localize(...)] and [Command.toLocalizedCommand(...)] calls,
    extracts (key, default value) pairs and files them in a nested catalog.

    Conventions of the embedding:
    - a JavaScript string is a [string]; one character stands for one
      UTF-16 code unit (only ASCII characters are ever compared);
    - a JavaScript object used as a dictionary is a [gmap string _] of its
      own properties (names inherited from the prototype are not modelled);
    - a [throw] is an [Err] carrying the message of the thrown [Error];
      the only handler in the module reads nothing but [message];
    - code that mutates an object returns the object after the mutation,
      also on the path that throws; the catalog is a tree of objects, each
      made by [insert] and held by one parent, and is modelled as that
      tree, next to a model of [insert] on a store of objects. *)

From Stdlib Require Import Ascii DecimalString.
From stdpp Require Import gmap strings list fin_maps.

Set Warnings "-register-all".

(** * JavaScript strings *)

Module JsString.

(** The characters the module names in literals, by their code. *)
Definition backslash : ascii := "092"%char.
Definition slash : ascii := "047"%char.
Definition single_quote : ascii := "039"%char.
Definition double_quote : ascii := "034"%char.
Definition newline : ascii := "010"%char.
Definition carriage_return : ascii := "013"%char.
Definition tab : ascii := "009"%char.
Definition backspace : ascii := "008"%char.
Definition form_feed : ascii := "012"%char.

(** A string of one character. *)
Definition chr (c : ascii) : string := String c EmptyString.

(** [str.charAt(i)]: the empty string when [i] is out of range. *)
Definition charAt (str : string) (i : nat) : string :=
  match String.get i str with
  | Some c => chr c
  | None => EmptyString
  end.

(** [parts.join(sep)]. *)
Definition join (sep : string) (parts : list string) : string :=
  String.concat sep parts.

(** [key.split('/')]: never empty, an empty key gives one empty part. *)
Fixpoint split_slash (s : string) : list string :=
  match s with
  | EmptyString => [EmptyString]
  | String c s' =>
      if Ascii.eqb c slash then EmptyString :: split_slash s'
      else match split_slash s' with
           | p :: ps => String c p :: ps
           | [] => [chr c]
           end
  end.

(** [key.startsWith(prefix)]. *)
Definition startsWith (key prefix : string) : bool := String.prefix prefix key.

(** A number inside a template literal: its decimal digits. *)
Definition of_nat (n : nat) : string := NilZero.string_of_uint (Nat.to_uint n).

End JsString.

Import JsString.

(** * Thrown errors *)

(** The outcome of a call that may throw: the value, or the message of the
    error. *)
Inductive Result (A : Type) : Type :=
| Ok (a : A)
| Err (message : string).

Arguments Ok {A} a.
Arguments Err {A} message.

Definition bind {A B : Type} (r : Result A) (k : A -> Result B) : Result B :=
  match r with
  | Ok a => k a
  | Err m => Err m
  end.

Notation "'let*' x ':=' r 'in' k" := (bind r (fun x => k))
  (at level 10, x pattern, r at level 100, k at level 200).

(** * String literal decoding *)

(** [unescapeMap]: the record of the eight escapes, keyed by the character
    after the backslash. *)
Definition unescapeMap : list (string * string) :=
  [ (chr single_quote, chr single_quote);
    (chr double_quote, chr double_quote);
    (chr backslash, chr backslash);
    ("n", chr newline);
    ("r", chr carriage_return);
    ("t", chr tab);
    ("b", chr backspace);
    ("f", chr form_feed) ].

(** [record[key]]: the value of the first entry with that key, [None] for
    [undefined]. *)
Fixpoint record_get (record : list (string * string)) (key : string) : option string :=
  match record with
  | [] => None
  | (k, v) :: record' => if String.eqb k key then Some v else record_get record' key
  end.

(** The [for] loop of [unescapeString]: [i] is the loop index and [result]
    the array pushed to; one unit of [fuel] is spent per iteration. After
    an escape the index is advanced twice, once by the body and once by the
    loop. *)
Fixpoint unescape_loop (fuel : nat) (str : string) (i : nat) (result : list string)
  : list string :=
  match fuel with
  | O => result
  | S fuel' =>
      if i <? String.length str then
        let ch := charAt str i in
        if String.eqb ch (chr backslash) then
          if i + 1 <? String.length str then
            match record_get unescapeMap (charAt str (i + 1)) with
            | Some replace => unescape_loop fuel' str (i + 2) (result ++ [replace])
            | None => unescape_loop fuel' str (i + 1) (result ++ [ch])
            end
          else unescape_loop fuel' str (i + 1) (result ++ [ch])
        else unescape_loop fuel' str (i + 1) (result ++ [ch])
      else result
  end.

(** [unescapeString]: the index grows at every iteration, so the length of
    the string is fuel enough (see [unescape_loop_fuel]). *)
Definition unescapeString (str : string) : string :=
  join EmptyString (unescape_loop (String.length str) str 0 []).

(** The same decoding by recursion on what is left of the string; shown
    equal to [unescapeString] in [unescapeString_unescape]. *)
Fixpoint unescape (s : string) : string :=
  match s with
  | EmptyString => EmptyString
  | String c rest =>
      if Ascii.eqb c backslash then
        match rest with
        | String c2 rest' =>
            match record_get unescapeMap (chr c2) with
            | Some replace => replace +:+ unescape rest'
            | None => String c (unescape rest)
            end
        | EmptyString => chr c
        end
      else String c (unescape rest)
  end.

(** No recognised escape sequence starts anywhere in the string. *)
Fixpoint escape_free (s : string) : bool :=
  match s with
  | EmptyString => true
  | String c rest =>
      match rest with
      | String c2 _ =>
          negb (Ascii.eqb c backslash && bool_decide (is_Some (record_get unescapeMap (chr c2))))
      | EmptyString => true
      end && escape_free rest
  end.

(** * Syntax trees *)

(** What every node carries: [pos], its offset in the file, and the source
    text [getText()] returns for it. *)
Record NodeInfo : Type := { pos : nat; getText : string }.

(** The nodes the extractor tells apart; every other kind is an
    [OtherNode], with the [name] property some kinds have (a method, an
    accessor, a shorthand property; a spread has none) and the children
    [forEachChild] enumerates. *)
Inductive Node : Type :=
| CallExpression (info : NodeInfo) (expression : Node) (arguments : list Node)
| StringLiteral (info : NodeInfo) (text : string)
| Identifier (info : NodeInfo) (text : string)
| ObjectLiteralExpression (info : NodeInfo) (properties : list Node)
| PropertyAssignment (info : NodeInfo) (name : Node) (initializer : Node)
| OtherNode (info : NodeInfo) (name : option Node) (children : list Node).

Definition node_info (node : Node) : NodeInfo :=
  match node with
  | CallExpression info _ _ | StringLiteral info _ | Identifier info _
  | ObjectLiteralExpression info _ | PropertyAssignment info _ _
  | OtherNode info _ _ => info
  end.

(** The children of a node in source order, as [ts.forEachChild] hands
    them to its callback. *)
Definition forEachChild (node : Node) : list Node :=
  match node with
  | CallExpression _ expression arguments => expression :: arguments
  | StringLiteral _ _ | Identifier _ _ => []
  | ObjectLiteralExpression _ properties => properties
  | PropertyAssignment _ name initializer => [name; initializer]
  | OtherNode _ _ children => children
  end.

(** A parsed file: its name, the line map of its text (zero-based line and
    character of an offset) and the root of its tree. *)
Record SourceFile : Type := {
  fileName : string;
  getLineAndCharacterOfPosition : nat -> nat * nat;
  root : Node
}.

(** * The call-site collector *)

(** [loop] inside [collect]: [result] is the array the closure pushes to.
    The callback returns nothing, so [forEachChild] never stops early. *)
Fixpoint loop (fn : Node -> bool) (node : Node) (result : list Node) : list Node :=
  if fn node then result ++ [node]
  else
    match node with
    | CallExpression _ expression arguments =>
        fold_left (fun r child => loop fn child r) arguments (loop fn expression result)
    | StringLiteral _ _ | Identifier _ _ => result
    | ObjectLiteralExpression _ properties =>
        fold_left (fun r child => loop fn child r) properties result
    | PropertyAssignment _ name initializer =>
        loop fn initializer (loop fn name result)
    | OtherNode _ _ children =>
        fold_left (fun r child => loop fn child r) children result
    end.

Definition collect (n : Node) (fn : Node -> bool) : list Node := loop fn n [].

(** [f] on every element of a list with its index, counted from [i], the
    results one after the other. *)
Definition flat_mapi {A B : Type} (f : nat -> A -> list B) : nat -> list A -> list B :=
  fix go (i : nat) (l : list A) : list B :=
    match l with
    | [] => []
    | x :: l' => f i x ++ go (S i) l'
    end.

(** A left fold that also hands [f] the index of the element, counted
    from [i]. *)
Definition fold_lefti {A B : Type} (f : nat -> A -> B -> A) : nat -> list B -> A -> A :=
  fix go (i : nat) (l : list B) (a : A) : A :=
    match l with
    | [] => a
    | x :: l' => go (S i) l' (f i a x)
    end.

(** A node of a tree is named by the child indices leading to it. *)
Abbreviation Path := (list nat).

Fixpoint node_at (node : Node) (path : Path) : option Node :=
  match path with
  | [] => Some node
  | i :: path' =>
      match forEachChild node !! i with
      | Some child => node_at child path'
      | None => None
      end
  end.

(** The walk gets to a node when no node above it matches. *)
Fixpoint reachable (fn : Node -> bool) (node : Node) (path : Path) : bool :=
  match path with
  | [] => true
  | i :: path' =>
      negb (fn node) &&
      match forEachChild node !! i with
      | Some child => reachable fn child path'
      | None => false
      end
  end.

(** [loop] once more, with a log of the calls of [fn] next to [result]:
    every call is logged with the path of its argument, [here] being the
    path of [node]. Dropping the log gives [loop] back
    ([loop_traced_result]). *)
Fixpoint loop_traced (fn : Node -> bool) (node : Node) (here : Path)
    (state : list Node * list Path) : list Node * list Path :=
  let '(result, log) := state in
  let log := log ++ [here] in
  if fn node then (result ++ [node], log)
  else
    match node with
    | CallExpression _ expression arguments =>
        fold_lefti (fun i st child => loop_traced fn child (here ++ [i]) st) 1 arguments
          (loop_traced fn expression (here ++ [0]) (result, log))
    | StringLiteral _ _ | Identifier _ _ => (result, log)
    | ObjectLiteralExpression _ properties =>
        fold_lefti (fun i st child => loop_traced fn child (here ++ [i]) st) 0 properties
          (result, log)
    | PropertyAssignment _ name initializer =>
        loop_traced fn initializer (here ++ [1])
          (loop_traced fn name (here ++ [0]) (result, log))
    | OtherNode _ _ children =>
        fold_lefti (fun i st child => loop_traced fn child (here ++ [i]) st) 0 children
          (result, log)
    end.

(** All the nodes of a tree with their paths, a parent before its children
    and the children from left to right: the order of the source text. *)
Fixpoint preorder (node : Node) : list (Path * Node) :=
  ([], node) ::
  match node with
  | CallExpression _ expression arguments =>
      map (prod_map (cons 0) id) (preorder expression) ++
      flat_mapi (fun i child => map (prod_map (cons i) id) (preorder child)) 1 arguments
  | StringLiteral _ _ | Identifier _ _ => []
  | ObjectLiteralExpression _ properties =>
      flat_mapi (fun i child => map (prod_map (cons i) id) (preorder child)) 0 properties
  | PropertyAssignment _ name initializer =>
      map (prod_map (cons 0) id) (preorder name) ++
      map (prod_map (cons 1) id) (preorder initializer)
  | OtherNode _ _ children =>
      flat_mapi (fun i child => map (prod_map (cons i) id) (preorder child)) 0 children
  end.

(** The nodes the walk gets to, in the order of the source text. *)
Definition walked (fn : Node -> bool) (node : Node) : list (Path * Node) :=
  filter (fun pc => reachable fn node pc.1) (preorder node).

(** * Recognisers and extractors *)

Definition isLocalizeCall (node : Node) : bool :=
  match node with
  | CallExpression _ expression _ =>
      String.eqb (getText (node_info expression)) "nls.localize"
  | _ => false
  end.

Definition isCommandLocalizeUtility (node : Node) : bool :=
  match node with
  | CallExpression _ expression _ =>
      String.eqb (getText (node_info expression)) "Command.toLocalizedCommand"
  | _ => false
  end.

Definition buildErrorMessage (source : SourceFile) (message : string) (node : Node) : string :=
  let '(line, character) := getLineAndCharacterOfPosition source (pos (node_info node)) in
  fileName source +:+ "(" +:+ of_nat (line + 1) +:+ "," +:+ of_nat (character + 1)
    +:+ "): " +:+ message.

(** [throw new TypeScriptError(message, node)]. *)
Definition TypeScriptError {A : Type} (source : SourceFile) (message : string) (node : Node)
  : Result A :=
  Err (buildErrorMessage source message node).

Definition extractString (source : SourceFile) (node : Node) : Result string :=
  match node with
  | StringLiteral _ text => Ok (unescapeString text)
  | _ =>
      TypeScriptError source
        ("'" +:+ getText (node_info node) +:+ "' is not a string constant") node
  end.

Definition extractFromLocalizeCall (source : SourceFile) (node : Node)
  : Result (string * string) :=
  match node with
  | CallExpression _ _ args =>
      match args with
      | arg0 :: arg1 :: _ =>
          let* key := extractString source arg0 in
          let* value := extractString source arg1 in
          Ok (key, value)
      | _ => TypeScriptError source "Localize call needs at least 2 arguments" node
      end
  | _ => TypeScriptError source "Invalid node type" node
  end.

(** [ts.isStringLiteral]. *)
Definition isStringLiteral (node : Node) : bool :=
  match node with
  | StringLiteral _ _ => true
  | _ => false
  end.

(** The initializer the object literal gives a property: that of the last
    assignment [name: initializer] whose name is the identifier [name]. *)
Fixpoint object_property (properties : list Node) (name : string) : option Node :=
  match properties with
  | [] => None
  | property :: properties' =>
      match object_property properties' name with
      | Some initializer => Some initializer
      | None =>
          match property with
          | PropertyAssignment _ (Identifier _ text) initializer =>
              if String.eqb text name then Some initializer else None
          | _ => None
          end
      end
  end.

(** The decoded text of that initializer when it is a string literal. *)
Definition property_text (properties : list Node) (name : string) : option string :=
  match object_property properties name with
  | Some (StringLiteral _ text) => Some (unescapeString text)
  | _ => None
  end.

(** A value of type [string | undefined] is truthy when it is a string
    other than the empty one. *)
Definition truthy (v : option string) : bool :=
  match v with
  | Some s => negb (String.eqb s EmptyString)
  | None => false
  end.

(** [s || other] for a string [s]. *)
Definition or_else (s : string) (other : option string) : option string :=
  if truthy (Some s) then Some s else other.

(** [property.name], [undefined] for a node that has none. *)
Definition property_name (property : Node) : option Node :=
  match property with
  | PropertyAssignment _ name _ => Some name
  | OtherNode _ name _ => name
  | _ => None
  end.

(** [toLocalizedCommand] between double quotes, as the messages spell it. *)
Definition quoted_toLocalizedCommand : string :=
  chr double_quote +:+ "toLocalizedCommand" +:+ chr double_quote.

Definition relevantProps : list string := ["id"; "label"; "category"].

(** [relevantProps.includes(name)]. *)
Definition includes (names : list string) (name : string) : bool :=
  existsb (String.eqb name) names.

(** The loop over the properties of the object literal, filling
    [propertyMap]. *)
Fixpoint property_loop (source : SourceFile) (properties : list Node)
    (propertyMap : gmap string string) : Result (gmap string string) :=
  match properties with
  | [] => Ok propertyMap
  | property :: properties' =>
      match property_name property with
      | None => property_loop source properties' propertyMap
      | Some name =>
          match property with
          | PropertyAssignment _ _ initializer =>
              match name with
              | Identifier _ text =>
                  if includes relevantProps text then
                    let* value := extractString source initializer in
                    property_loop source properties' (<[text := value]> propertyMap)
                  else property_loop source properties' propertyMap
              | _ =>
                  TypeScriptError source
                    ("Only identifiers are allowed in " +:+ quoted_toLocalizedCommand)
                    property
              end
          | _ =>
              TypeScriptError source
                ("Only property assignments in " +:+ quoted_toLocalizedCommand
                   +:+ " are allowed") property
          end
      end
  end.

(** What [extractFromLocalizedCommandCall] returns. *)
Record LocalizedCommand : Type := {
  label : string * string;
  category : option (string * string)
}.

(** A value the source asserts to be defined, after its truthiness test. *)
Definition defined (v : option string) : string := default EmptyString v.

Definition extractFromLocalizedCommandCall (source : SourceFile) (node : Node)
  : Result LocalizedCommand :=
  match node with
  | CallExpression _ _ args =>
      match args with
      | [] => TypeScriptError source "Localize call needs at least 2 arguments" node
      | commandObj :: more =>
          match commandObj with
          | ObjectLiteralExpression _ properties =>
              let* propertyMap := property_loop source properties ∅ in
              let* labelKey :=
                match more with
                | arg1 :: _ =>
                    let* explicit := extractString source arg1 in
                    Ok (or_else explicit (propertyMap !! "id"))
                | [] => Ok (propertyMap !! "id")
                end in
              let* categoryKey :=
                match more with
                | _ :: arg2 :: _ =>
                    let* explicit := extractString source arg2 in Ok (Some explicit)
                | _ => Ok None
                end in
              if negb (truthy labelKey) then
                TypeScriptError source "No label key found" node
              else if negb (truthy (propertyMap !! "label")) then
                TypeScriptError source "No default label found" node
              else
                let categoryLabel := propertyMap !! "category" in
                let categoryLocalization :=
                  if truthy categoryKey && truthy categoryLabel
                  then Some (defined categoryKey, defined categoryLabel)
                  else None in
                Ok {| label := (defined labelKey, defined (propertyMap !! "label"));
                      category := categoryLocalization |}
          | _ =>
              TypeScriptError source
                ("First argument of " +:+ quoted_toLocalizedCommand
                   +:+ " needs to be an object literal") node
          end
      end
  | _ => TypeScriptError source "Invalid node type" node
  end.

(** * The catalog *)

(** A [Localization] maps a segment to a string or to a nested
    [Localization]. *)
Inductive Entry : Type :=
| Str (s : string)
| Obj (m : gmap string Entry).

Abbreviation Localization := (gmap string Entry).

Record ExtractionOptions : Type := {
  opt_root : string;
  output : string;
  exclude : option string;
  logs : option string;
  pattern : option string;
  merge : bool
}.

Definition isExcluded (options : ExtractionOptions) (key : string) : bool :=
  truthy (exclude options) && startsWith key (defined (exclude options)).

(** [typeof entry] for [entry = localization[part]]. *)
Inductive TypeOf : Type := TUndefined | TString | TObject.

Definition typeof (entry : option Entry) : TypeOf :=
  match entry with
  | None => TUndefined
  | Some (Str _) => TString
  | Some (Obj _) => TObject
  end.

Definition is_string (t : TypeOf) : bool := match t with TString => true | _ => false end.
Definition is_object (t : TypeOf) : bool := match t with TObject => true | _ => false end.

(** [!entry]: [undefined] and the empty string are falsy, an object is not. *)
Definition falsy (entry : option Entry) : bool :=
  match entry with
  | None => true
  | Some (Str s) => String.eqb s EmptyString
  | Some (Obj _) => false
  end.

(** The nested catalog the loop moves into with [localization = entry].
    It is only read after the [typeof entry === 'string'] test has let the
    entry through, so a string can only get here in the model. *)
Definition entry_object (entry : option Entry) : Localization :=
  match entry with
  | Some (Obj m) => m
  | _ => ∅
  end.

(** The callback of [parts.forEach] in [insert], from index [i] on: [todo]
    is what is left of [parts]. The catalog is mutated in place, so the
    catalog as it stands is returned with the outcome, also when the
    callback throws. The nested object [entry] is stored in its parent
    before the loop goes on inside it: what happens to it afterwards shows
    in the parent, which is why the parent is rebuilt around it. *)
Fixpoint insert_forEach (key value : string) (parts : list string) (i : nat)
    (todo : list string) (localization : Localization) : Localization * Result unit :=
  match todo with
  | [] => (localization, Ok tt)
  | part :: todo' =>
      let entry := localization !! part in
      if i =? length parts - 1 then
        if is_object (typeof entry) then
          (localization,
           Err ("Multiple tranlation keys already exist at '" +:+ key +:+ "'"))
        else
          insert_forEach key value parts (S i) todo' (<[part := Str value]> localization)
      else
        if is_string (typeof entry) then
          (localization,
           Err ("String entry already exists at '"
                  +:+ join "/" (take (i + 1) parts) +:+ "'"))
        else
          let entry := if falsy entry then ∅ else entry_object entry in
          let localization := <[part := Obj entry]> localization in
          let '(entry', outcome) := insert_forEach key value parts (S i) todo' entry in
          (<[part := Obj entry']> localization, outcome)
  end.

Definition insert (localization : Localization) (key value : string)
  : Localization * Result unit :=
  let parts := split_slash key in
  insert_forEach key value parts 0 parts localization.

(** Where [parts.forEach] stands: the segments already walked ([done]) and
    those still to walk ([todo]) make up [parts], and [i] is the index of
    the first of [todo]. *)
Definition in_step (parts done todo : list string) (i : nat) : Prop :=
  parts = done ++ todo /\ i = length done.

(** The entry a path of segments leads to. *)
Fixpoint resolve (localization : Localization) (path : list string) : option Entry :=
  match path with
  | [] => Some (Obj localization)
  | part :: path' =>
      match localization !! part with
      | Some (Obj m) => resolve m path'
      | Some (Str s) => match path' with [] => Some (Str s) | _ :: _ => None end
      | None => None
      end
  end.

(** The value a key leads to in a catalog. *)
Definition lookup_key (localization : Localization) (key : string) : option Entry :=
  resolve localization (split_slash key).

(** * The catalog as objects in a store *)

(** [insert] works on one object graph in place. The store below has the
    objects themselves: a property holds a string or a reference, [{}]
    allocates, [localization = entry] copies a reference. It is the model
    of [insert] closest to the source; [heap_insert_simulation] shows that on
    the catalogs the extractor builds, which are trees, it does what
    [insert] above does. *)
Inductive Value : Type :=
| VStr (s : string)
| VRef (l : positive).

Abbreviation Heap := (gmap positive (gmap string Value)).

(** The properties of the object at a reference. *)
Definition object_at (h : Heap) (l : positive) : gmap string Value :=
  default ∅ (h !! l).

(** [object[part] = v]. *)
Definition heap_store (h : Heap) (l : positive) (part : string) (v : Value) : Heap :=
  <[l := <[part := v]> (object_at h l)]> h.

(** [{}]: a new, empty object. *)
Definition heap_alloc (h : Heap) : Heap * positive :=
  let l := fresh (dom h) in (<[l := ∅]> h, l).

Definition heap_typeof (entry : option Value) : TypeOf :=
  match entry with
  | None => TUndefined
  | Some (VStr _) => TString
  | Some (VRef _) => TObject
  end.

Definition heap_falsy (entry : option Value) : bool :=
  match entry with
  | None => true
  | Some (VStr s) => String.eqb s EmptyString
  | Some (VRef _) => false
  end.

(** The callback of [parts.forEach] on the store: [localization] is the
    reference the variable of that name holds. *)
Fixpoint heap_insert_forEach (key value : string) (parts : list string) (i : nat)
    (todo : list string) (h : Heap) (localization : positive) : Heap * Result unit :=
  match todo with
  | [] => (h, Ok tt)
  | part :: todo' =>
      let entry := object_at h localization !! part in
      if i =? length parts - 1 then
        if is_object (heap_typeof entry) then
          (h, Err ("Multiple tranlation keys already exist at '" +:+ key +:+ "'"))
        else
          heap_insert_forEach key value parts (S i) todo'
            (heap_store h localization part (VStr value)) localization
      else
        if is_string (heap_typeof entry) then
          (h, Err ("String entry already exists at '"
                     +:+ join "/" (take (i + 1) parts) +:+ "'"))
        else
          let '(h, entry) :=
            if heap_falsy entry then
              let '(h, l) := heap_alloc h in (h, VRef l)
            else (h, default (VStr EmptyString) entry) in
          let h := heap_store h localization part entry in
          match entry with
          | VRef l => heap_insert_forEach key value parts (S i) todo' h l
          | VStr _ => (h, Ok tt)
          end
  end.

Definition heap_insert (h : Heap) (localization : positive) (key value : string)
  : Heap * Result unit :=
  let parts := split_slash key in
  heap_insert_forEach key value parts 0 parts h localization.


(** The object at [l] and what it leads to are the catalog [t], and no
    object is met twice on the way: [fp] is the set of the references met,
    the sets of the properties of one object being apart. *)
Inductive repr (h : Heap) : positive -> Localization -> gset positive -> Prop :=
| repr_object l o t (fps : string -> gset positive) fp :
    h !! l = Some o ->
    (forall k, repr_value h (o !! k) (t !! k) (fps k)) ->
    (forall k k', k <> k' -> fps k ## fps k') ->
    (forall k, l ∉ fps k) ->
    (forall l', l' ∈ fp <-> l' = l \/ exists k, l' ∈ fps k) ->
    repr h l t fp
with repr_value (h : Heap) : option Value -> option Entry -> gset positive -> Prop :=
| repr_undefined : repr_value h None None ∅
| repr_string s : repr_value h (Some (VStr s)) (Some (Str s)) ∅
| repr_reference l t fp : repr h l t fp -> repr_value h (Some (VRef l)) (Some (Obj t)) fp.

Scheme repr_mut := Minimality for repr Sort Prop
  with repr_value_mut := Minimality for repr_value Sort Prop.

(** A run of insertions into one catalog, the messages thrown on the way
    kept in order: what the loops of [extractFromFile] do with [insert]. *)
Fixpoint insert_all (localization : Localization) (pairs : list (string * string))
  : Localization * list string :=
  match pairs with
  | [] => (localization, [])
  | (key, value) :: pairs' =>
      let '(localization', outcome) := insert localization key value in
      let '(final, messages) := insert_all localization' pairs' in
      (final, match outcome with Err message => message :: messages | Ok _ => messages end)
  end.

(** The same run on the store. *)
Fixpoint heap_insert_all (h : Heap) (localization : positive) (pairs : list (string * string))
  : Heap * list string :=
  match pairs with
  | [] => (h, [])
  | (key, value) :: pairs' =>
      let '(h', outcome) := heap_insert h localization key value in
      let '(final, messages) := heap_insert_all h' localization pairs' in
      (final, match outcome with Err message => message :: messages | Ok _ => messages end)
  end.

(** * Per-file extraction *)

(** The state the two loops of [extractFromFile] work on: the catalog of
    the file and the error sink of the caller. *)
Abbreviation FileState := (Localization * list string)%type.

(** [insert] inside a [try]: the statements after it are skipped when it
    throws. *)
Definition try_insert (localization : Localization) (key value : string)
    (next : Localization -> Localization * Result unit) : Localization * Result unit :=
  match insert localization key value with
  | (localization', Ok _) => next localization'
  | (localization', Err message) => (localization', Err message)
  end.

(** The [catch] clause: the message is pushed to [errors] (and printed). *)
Definition catch (errors : list string) (attempt : Localization * Result unit) : FileState :=
  match attempt with
  | (localization, Ok _) => (localization, errors)
  | (localization, Err message) => (localization, errors ++ [message])
  end.

(** One iteration of the loop over the [nls.localize] calls. *)
Definition localize_step (source : SourceFile) (options : ExtractionOptions)
    (state : FileState) (call : Node) : FileState :=
  let '(localization, errors) := state in
  catch errors
    match extractFromLocalizeCall source call with
    | Err message => (localization, Err message)
    | Ok extracted =>
        if negb (isExcluded options extracted.1) then
          try_insert localization extracted.1 extracted.2 (fun l => (l, Ok tt))
        else (localization, Ok tt)
    end.

(** One iteration of the loop over the [Command.toLocalizedCommand] calls. *)
Definition command_step (source : SourceFile) (options : ExtractionOptions)
    (state : FileState) (command : Node) : FileState :=
  let '(localization, errors) := state in
  catch errors
    match extractFromLocalizedCommandCall source command with
    | Err message => (localization, Err message)
    | Ok extracted =>
        let insert_category (localization : Localization) :=
          match category extracted with
          | Some category =>
              if negb (isExcluded options category.1) then
                try_insert localization category.1 category.2 (fun l => (l, Ok tt))
              else (localization, Ok tt)
          | None => (localization, Ok tt)
          end in
        if negb (isExcluded options (label extracted).1) then
          try_insert localization (label extracted).1 (label extracted).2 insert_category
        else insert_category localization
    end.

(** [extractFromFile], from the parsed file on: reading the file and
    parsing it are the business of the file system and of the compiler. *)
Definition extractFromFile (source : SourceFile) (options : ExtractionOptions)
    (errors : list string) : FileState :=
  let localizationCalls := collect (root source) isLocalizeCall in
  let state := fold_left (localize_step source options) localizationCalls (∅, errors) in
  let localizedCommands := collect (root source) isCommandLocalizeUtility in
  fold_left (command_step source options) localizedCommands state.

(** * Aggregation *)

(** Modelled from the spec: [deepmerge], the structural deep merge the
    module imports from the package of that name, whose code is not among
    the sources. For every key of either side: two nested catalogs are
    merged recursively; otherwise the value of the later operand wins when
    it has the key, and the value of the earlier one stays when it has not.
    Nothing is ever a conflict. *)
Fixpoint deepmerge_entry (x y : Entry) : Entry :=
  match x, y with
  | Obj a, Obj b => Obj (union_with (fun x' y' => Some (deepmerge_entry x' y')) a b)
  | _, _ => y
  end.

Definition deepmerge (target source : Localization) : Localization :=
  union_with (fun x y => Some (deepmerge_entry x y)) target source.

(** The loop of [extract] over the files found, in order. *)
Definition extract_files (options : ExtractionOptions) (files : list SourceFile) : FileState :=
  fold_left
    (fun (state : FileState) file =>
       let '(localization, errors) := state in
       let '(fileLocalization, errors') := extractFromFile file options errors in
       (deepmerge localization fileLocalization, errors'))
    files (∅, []).

(** What a run writes: the catalog, and the log when there is one. *)
Record Written : Type := {
  written_catalog : Localization;
  written_log : option string
}.

(** [extract] after file discovery: [files] are the parsed files in the
    order found, [existing] the content of the output file when there is
    one, [eol] the line separator of the platform. *)
Definition extract (options : ExtractionOptions) (files : list SourceFile)
    (existing : option Localization) (eol : string) : Written :=
  let '(localization, errors) := extract_files options files in
  let log :=
    if (0 <? length errors) && truthy (logs options)
    then Some (join eol errors) else None in
  let localization :=
    match existing with
    | Some existing => if merge options then deepmerge existing localization else localization
    | None => localization
    end in
  {| written_catalog := localization; written_log := log |}.

(** * Sample files *)

(** Small syntax trees for the examples: every node of a sample is given
    an offset, and the line map counts eighty characters to the line. *)
Module Sample.

Definition at_ (p : nat) (text : string) : NodeInfo := {| pos := p; getText := text |}.

Definition literal (p : nat) (text : string) : Node :=
  StringLiteral (at_ p ("'" +:+ text +:+ "'")) text.

Definition identifier (p : nat) (text : string) : Node := Identifier (at_ p text) text.

(** [name: 'value'] inside an object literal. *)
Definition assign (p : nat) (name value : string) : Node :=
  PropertyAssignment (at_ p (name +:+ ": '" +:+ value +:+ "'"))
    (identifier p name) (literal (p + 2) value).

Definition object (p : nat) (properties : list Node) : Node :=
  ObjectLiteralExpression (at_ p "{ ... }") properties.

(** The property access [object.member], the callee of both patterns. *)
Definition access (p : nat) (object member : string) : Node :=
  OtherNode (at_ p (object +:+ "." +:+ member)) (Some (identifier p member))
    [identifier p object; identifier p member].

Definition localize (p : nat) (args : list Node) : Node :=
  CallExpression (at_ p "nls.localize(...)") (access p "nls" "localize") args.

Definition toLocalizedCommand (p : nat) (args : list Node) : Node :=
  CallExpression (at_ p "Command.toLocalizedCommand(...)")
    (access p "Command" "toLocalizedCommand") args.

(** A file with the given statements. *)
Definition file (name : string) (statements : list Node) : SourceFile :=
  {| fileName := name;
     getLineAndCharacterOfPosition := fun p => (p / 80, p mod 80);
     root := OtherNode (at_ 0 EmptyString) None statements |}.

Definition options (exclude : option string) : ExtractionOptions :=
  {| opt_root := "."; output := "out.json"; exclude := exclude; logs := None;
     pattern := None; merge := false |}.

End Sample.

(** * Further notions for the properties of the code *)

(** The last character of the string is a backslash. *)
Fixpoint ends_with_backslash (s : string) : bool :=
  match s with
  | EmptyString => false
  | String c EmptyString => Ascii.eqb c backslash
  | String _ rest => ends_with_backslash rest
  end.

(** A member of the object literal the property loop passes over: one
    without a name, or an assignment to an identifier that is not one of
    [relevantProps]. *)
Definition ignored_property (property : Node) : bool :=
  match property_name property with
  | None => true
  | Some name =>
      match property, name with
      | PropertyAssignment _ _ _, Identifier _ text => negb (includes relevantProps text)
      | _, _ => false
      end
  end.

(** A member the property loop does not throw at: an ignored one, or an
    assignment of a string literal to one of [relevantProps]. *)
Definition accepted_property (property : Node) : bool :=
  ignored_property property ||
  match property with
  | PropertyAssignment _ (Identifier _ _) initializer => isStringLiteral initializer
  | _ => false
  end.

(** The pairs the calls of a list give, in order; a call the extractor
    throws at gives none. *)
Definition localize_pairs (source : SourceFile) (calls : list Node) : list (string * string) :=
  flat_map (fun call => match extractFromLocalizeCall source call with
                        | Ok extracted => [extracted]
                        | Err _ => []
                        end) calls.

Definition command_pairs (source : SourceFile) (commands : list Node)
  : list (string * string) :=
  flat_map (fun command => match extractFromLocalizedCommandCall source command with
                           | Ok extracted =>
                               label extracted :: option_list (category extracted)
                           | Err _ => []
                           end) commands.

(** All the pairs the call sites of a file give. *)
Definition extracted_pairs (source : SourceFile) : list (string * string) :=
  localize_pairs source (collect (root source) isLocalizeCall)
  ++ command_pairs source (collect (root source) isCommandLocalizeUtility).

(** [ts.isPropertyAssignment] and [ts.isIdentifier]. *)
Definition isPropertyAssignment (node : Node) : bool :=
  match node with
  | PropertyAssignment _ _ _ => true
  | _ => false
  end.

Definition isIdentifier (node : Node) : bool :=
  match node with
  | Identifier _ _ => true
  | _ => false
  end.

(** The label key of a command call with the members [properties] and the
    arguments [more] after the object literal, when these are literals. *)
Definition label_key_of (properties more : list Node) : option string :=
  match more with
  | StringLiteral _ text :: _ => or_else (unescapeString text) (property_text properties "id")
  | _ => property_text properties "id"
  end.


(** The pairs whose key the [exclude] option lets through. *)
Definition kept_pairs (options : ExtractionOptions) (pairs : list (string * string))
  : list (string * string) :=
  List.filter (fun extracted => negb (isExcluded options extracted.1)) pairs.

(** * Proofs: string literal decoding *)

Section Unescape.

Lemma append_nil_l (s : string) : EmptyString +:+ s = s.
Proof. reflexivity. Qed.

Lemma append_cons (c : ascii) (s t : string) : String c s +:+ t = String c (s +:+ t).
Proof. reflexivity. Qed.

Lemma append_assoc (s t u : string) : (s +:+ t) +:+ u = s +:+ (t +:+ u).
Proof. induction s as [|c s IH]; [reflexivity|]. rewrite !append_cons. now rewrite IH. Qed.

Lemma append_empty_r (s : string) : s +:+ EmptyString = s.
Proof. induction s as [|c s IH]; [reflexivity|]. rewrite append_cons. now rewrite IH. Qed.

Lemma length_append (s t : string) :
  String.length (s +:+ t) = String.length s + String.length t.
Proof. induction s as [|c s IH]; [reflexivity|]. rewrite append_cons. simpl. now rewrite IH. Qed.

Lemma append_chr (s : string) (c : ascii) (t : string) :
  s +:+ String c t = (s +:+ chr c) +:+ t.
Proof. now rewrite append_assoc. Qed.

Lemma get_append (s t : string) (k : nat) :
  String.get (String.length s + k) (s +:+ t) = String.get k t.
Proof. induction s as [|c s IH]; [reflexivity|]. rewrite append_cons. simpl. apply IH. Qed.

Lemma charAt_append (s t : string) (k : nat) :
  charAt (s +:+ t) (String.length s + k) = charAt t k.
Proof. unfold charAt. now rewrite get_append. Qed.

Lemma chr_eqb (c d : ascii) : String.eqb (chr c) (chr d) = Ascii.eqb c d.
Proof. simpl. destruct (Ascii.eqb c d); reflexivity. Qed.

Lemma join_empty_snoc (l : list string) (x : string) :
  join EmptyString (l ++ [x]) = join EmptyString l +:+ x.
Proof.
  unfold join. induction l as [|y l IH].
  - reflexivity.
  - destruct l as [|z l].
    + simpl. now rewrite append_nil_l.
    + change (String.concat EmptyString ((y :: z :: l) ++ [x]))
        with (y +:+ EmptyString +:+ String.concat EmptyString ((z :: l) ++ [x])).
      rewrite IH.
      change (String.concat EmptyString (y :: z :: l))
        with (y +:+ EmptyString +:+ String.concat EmptyString (z :: l)).
      now rewrite !append_assoc.
Qed.

(** The loop, started after [pre] with [suf] left to read, pushes the
    decoding of [suf]. *)
Lemma unescape_loop_spec (fuel : nat) :
  forall (pre suf : string) (result : list string),
    String.length suf <= fuel ->
    join EmptyString (unescape_loop fuel (pre +:+ suf) (String.length pre) result)
    = join EmptyString result +:+ unescape suf.
Proof.
  induction fuel as [|fuel IH]; intros pre suf result Hfuel.
  - destruct suf; simpl in Hfuel; [|lia]. simpl. now rewrite append_empty_r.
  - cbn [unescape_loop]. rewrite length_append.
    destruct suf as [|c rest].
    + simpl String.length. rewrite Nat.add_0_r.
      rewrite (proj2 (Nat.ltb_ge _ _)) by lia. simpl. now rewrite append_empty_r.
    + simpl String.length in *.
      rewrite (proj2 (Nat.ltb_lt _ _)) by lia.
      pose proof (charAt_append pre (String c rest) 0) as Hch.
      rewrite Nat.add_0_r in Hch. rewrite Hch. clear Hch.
      change (charAt (String c rest) 0) with (chr c).
      rewrite chr_eqb.
      assert (Hnext : forall x,
        join EmptyString (unescape_loop fuel (pre +:+ String c rest)
                            (String.length pre + 1) (result ++ [x]))
        = (join EmptyString result +:+ x) +:+ unescape rest).
      { intros x. rewrite append_chr.
        replace (String.length pre + 1) with (String.length (pre +:+ chr c))
          by (rewrite length_append; reflexivity).
        rewrite IH by lia. now rewrite join_empty_snoc. }
      cbn [unescape]. destruct (Ascii.eqb c backslash) eqn:Hc.
      * destruct rest as [|c2 rest'].
        -- simpl String.length. rewrite (proj2 (Nat.ltb_ge _ _)) by lia.
           rewrite Hnext. cbn [unescape]. now rewrite append_empty_r.
        -- simpl String.length in *. rewrite (proj2 (Nat.ltb_lt _ _)) by lia.
           rewrite (charAt_append pre (String c (String c2 rest')) 1).
           change (charAt (String c (String c2 rest')) 1) with (chr c2).
           destruct (record_get unescapeMap (chr c2)) as [replace|].
           ++ rewrite append_chr. rewrite (append_chr (pre +:+ chr c)).
              replace (String.length pre + 2)
                with (String.length ((pre +:+ chr c) +:+ chr c2))
                by (rewrite !length_append; simpl; lia).
              rewrite IH by lia. rewrite join_empty_snoc.
              now rewrite append_assoc.
           ++ rewrite Hnext. now rewrite append_assoc.
      * rewrite Hnext. now rewrite append_assoc.
Qed.

(** The length of the string is fuel enough, and more changes nothing. *)
Lemma unescape_loop_fuel (str : string) (fuel : nat) :
  String.length str <= fuel ->
  join EmptyString (unescape_loop fuel str 0 []) = unescape str.
Proof.
  intros H. exact (unescape_loop_spec fuel EmptyString str [] H).
Qed.

Lemma unescapeString_unescape (str : string) : unescapeString str = unescape str.
Proof. unfold unescapeString. now apply unescape_loop_fuel. Qed.

End Unescape.

Section UnescapeClaims.

Lemma unescape_escape_free (t : string) : escape_free t = true -> unescape t = t.
Proof.
  induction t as [|c rest IH]; [reflexivity|].
  cbn [escape_free unescape]. intros H.
  apply andb_prop in H as [Hhead Hrest]. specialize (IH Hrest).
  destruct (Ascii.eqb c backslash) eqn:Hc; [|now rewrite IH].
  destruct rest as [|c2 rest']; [reflexivity|].
  cbn [andb] in Hhead.
  destruct (record_get unescapeMap (chr c2)) as [replace|] eqn:Hmap.
  - rewrite bool_decide_eq_true_2 in Hhead by eauto. discriminate.
  - now rewrite IH.
Qed.

Lemma record_get_other (c : ascii) :
  c ∉ [single_quote; double_quote; backslash; "n"; "r"; "t"; "b"; "f"]%char ->
  record_get unescapeMap (chr c) = None.
Proof.
  intros H. unfold unescapeMap. cbn [record_get].
  repeat match goal with
  | |- context [String.eqb ?a (chr c)] =>
      destruct (String.eqb_spec a (chr c)) as [E|_];
        [injection E as <-; exfalso; apply H; set_solver|]
  end.
  reflexivity.
Qed.

End UnescapeClaims.

(** C3, as amended. The decoder reads the string from the left. Each of the
    eight sequences backslash-quote, backslash-doublequote,
    backslash-backslash, \n, \r, \t, \b, \f becomes its one character; a
    backslash before any other character, or at the end of the string, stays
    as it is and the next character is read afresh; every other character is
    copied. So [a\nb] decodes to [a], newline, [b] and [a\qb] to itself.
    Text in which no recognised escape sequence starts is left unchanged. *)
Theorem unescapeString_escapes :
  Forall (fun '(c, meaning) =>
            forall s, unescapeString (String backslash (String c s))
                      = String meaning (unescapeString s))
    [ (single_quote, single_quote); (double_quote, double_quote);
      (backslash, backslash); ("n", newline); ("r", carriage_return);
      ("t", tab); ("b", backspace); ("f", form_feed) ]%char
  /\ (forall c s,
        c ∉ [single_quote; double_quote; backslash; "n"; "r"; "t"; "b"; "f"]%char ->
        unescapeString (String backslash (String c s))
        = String backslash (String c (unescapeString s)))
  /\ unescapeString (chr backslash) = chr backslash
  /\ (forall c s, c ≠ backslash ->
        unescapeString (String c s) = String c (unescapeString s))
  /\ unescapeString EmptyString = EmptyString
  /\ unescapeString ("a" +:+ chr backslash +:+ "nb") = "a" +:+ chr newline +:+ "b"
  /\ unescapeString ("a" +:+ chr backslash +:+ "qb") = "a" +:+ chr backslash +:+ "qb"
  /\ (forall t, escape_free t = true -> unescapeString t = t).
Proof.
  repeat split.
  - repeat constructor; intros s; rewrite !unescapeString_unescape; reflexivity.
  - intros c s Hc. rewrite !unescapeString_unescape.
    assert (c ≠ backslash) as Hbs by (intros ->; apply Hc; set_solver).
    cbn [unescape]. change (Ascii.eqb backslash backslash) with true. cbn match.
    rewrite (record_get_other c Hc).
    now rewrite (proj2 (Ascii.eqb_neq c backslash) Hbs).
  - intros c s Hc. rewrite !unescapeString_unescape. cbn [unescape].
    now rewrite (proj2 (Ascii.eqb_neq c backslash) Hc).
  - intros t Ht. rewrite unescapeString_unescape. now apply unescape_escape_free.
Qed.

(** C3, the witness: the clauses with a side condition, at [q] and at
    plain text. *)
Lemma unescapeString_escapes_witness :
  unescapeString (String backslash "qz") = String backslash "qz"
  /\ unescapeString "plain text" = "plain text".
Proof.
  destruct unescapeString_escapes as (_ & Hother & _ & _ & _ & _ & _ & Hfree).
  split.
  - rewrite (Hother "q"%char "z").
    + reflexivity.
    + intros H. repeat (apply elem_of_cons in H as [H|H]; [discriminate H|]).
      now apply elem_of_nil in H.
  - apply Hfree. reflexivity.
Defined.

(** C3, the counterexample: the text backslash-backslash-n decodes to
    backslash-n, and decoding that once more gives a newline: decoded text
    is not a fixed point of the decoder. *)
Lemma unescapeString_twice_differs :
  unescapeString (String backslash (String backslash "n")) = String backslash "n"
  /\ unescapeString (unescapeString (String backslash (String backslash "n")))
     <> unescapeString (String backslash (String backslash "n")).
Proof. split; [reflexivity | discriminate]. Qed.

(** * Proofs: the call-site collector *)

Section NodeInduction.

Variable P : Node -> Prop.
Hypothesis step : forall node, Forall P (forEachChild node) -> P node.

(** Induction on a tree, with the property known of all the children. *)
Lemma Node_children_ind : forall node, P node.
Proof.
  fix IH 1. intros node. apply step.
  destruct node as [info e args| | |info props|info nm ini|info nm ch]; cbn [forEachChild].
  - constructor; [apply IH|].
    induction args as [|a args IHargs]; constructor; [apply IH | exact IHargs].
  - constructor.
  - constructor.
  - induction props as [|a props IHprops]; constructor; [apply IH | exact IHprops].
  - repeat constructor; apply IH.
  - induction ch as [|a ch IHch]; constructor; [apply IH | exact IHch].
Qed.

End NodeInduction.

Section IndexedLists.

Context {A B : Type}.

Lemma flat_mapi_app (f : nat -> A -> list B) (i : nat) (l1 l2 : list A) :
  flat_mapi f i (l1 ++ l2) = flat_mapi f i l1 ++ flat_mapi f (i + length l1) l2.
Proof.
  revert i. induction l1 as [|x l1 IH]; intros i; cbn.
  - now rewrite Nat.add_0_r.
  - rewrite IH, <- app_assoc. do 3 f_equal. lia.
Qed.

(** Two indexed maps agree when they agree at every position of the
    list. *)
Lemma flat_mapi_ext (f g : nat -> A -> list B) (i : nat) (l : list A) :
  (forall j x, l !! j = Some x -> f (i + j) x = g (i + j) x) ->
  flat_mapi f i l = flat_mapi g i l.
Proof.
  revert i. induction l as [|x l IH]; intros i H; cbn; [reflexivity|].
  f_equal.
  - specialize (H 0 x eq_refl). now rewrite Nat.add_0_r in H.
  - apply IH. intros j y Hj. specialize (H (S j) y Hj).
    now replace (S i + j) with (i + S j) by lia.
Qed.

Lemma flat_mapi_nil (f : nat -> A -> list B) (i : nat) (l : list A) :
  (forall j x, l !! j = Some x -> f (i + j) x = []) ->
  flat_mapi f i l = [].
Proof.
  intros H. rewrite (flat_mapi_ext f (fun _ _ => []) i l H).
  clear H. revert i. induction l as [|x l IH]; intros i; cbn; auto.
Qed.

Lemma elem_of_flat_mapi (f : nat -> A -> list B) (i : nat) (l : list A) (b : B) :
  b ∈ flat_mapi f i l <-> exists j x, l !! j = Some x /\ b ∈ f (i + j) x.
Proof.
  revert i. induction l as [|x l IH]; intros i; cbn.
  - split; [intros H; now apply elem_of_nil in H | intros (j & y & H & _); discriminate].
  - rewrite elem_of_app, IH. split.
    + intros [H|(j & y & Hj & H)].
      * exists 0, x. rewrite Nat.add_0_r. auto.
      * exists (S j), y. replace (i + S j) with (S i + j) by lia. auto.
    + intros (j & y & Hj & H). destruct j as [|j].
      * left. cbn in Hj. injection Hj as ->. now rewrite Nat.add_0_r in H.
      * right. exists j, y. replace (S i + j) with (i + S j) by lia. auto.
Qed.

End IndexedLists.

Lemma map_flat_mapi {A B C : Type} (h : B -> C) (f : nat -> A -> list B) (i : nat)
    (l : list A) :
  map h (flat_mapi f i l) = flat_mapi (fun j x => map h (f j x)) i l.
Proof.
  revert i. induction l as [|x l IH]; intros i; cbn; [reflexivity|].
  now rewrite map_app, IH.
Qed.

Lemma filter_flat_mapi {A B : Type} (Q : B -> Prop) `{forall b, Decision (Q b)}
    (f : nat -> A -> list B) (i : nat) (l : list A) :
  filter Q (flat_mapi f i l) = flat_mapi (fun j x => filter Q (f j x)) i l.
Proof.
  revert i. induction l as [|x l IH]; intros i; cbn; [reflexivity|].
  now rewrite filter_app, IH.
Qed.

Lemma filter_map_comm {A B : Type} (h : A -> B) (Q : B -> Prop) `{forall b, Decision (Q b)}
    (l : list A) :
  filter Q (map h l) = map h (filter (fun a => Q (h a)) l).
Proof.
  induction l as [|x l IH]; [reflexivity|].
  cbn [map]. rewrite !filter_cons. destruct (decide (Q (h x))); cbn [map]; now rewrite IH.
Qed.

Lemma filter_ext_in {A : Type} (Q R : A -> Prop) `{forall a, Decision (Q a)}
    `{forall a, Decision (R a)} (l : list A) :
  (forall a, a ∈ l -> Q a <-> R a) -> filter Q l = filter R l.
Proof.
  induction l as [|x l IH]; intros Hext; [reflexivity|].
  rewrite !filter_cons.
  assert (Hx : Q x <-> R x) by (apply Hext; left).
  rewrite IH by (intros a Ha; apply Hext; now right).
  destruct (decide (Q x)), (decide (R x)); tauto.
Qed.

Lemma filter_none {A : Type} (Q : A -> Prop) `{forall a, Decision (Q a)} (l : list A) :
  (forall a, a ∈ l -> ~ Q a) -> filter Q l = [].
Proof.
  induction l as [|x l IH]; intros Hno; [reflexivity|].
  rewrite filter_cons, decide_False by (apply Hno; left).
  apply IH. intros a Ha. apply Hno. now right.
Qed.

Section Collect.

Variable fn : Node -> bool.

(** [loop] in terms of [forEachChild], as the source has it. *)
Lemma loop_unfold (node : Node) (result : list Node) :
  loop fn node result =
  if fn node then result ++ [node]
  else fold_left (fun r child => loop fn child r) (forEachChild node) result.
Proof. destruct node; reflexivity. Qed.

Lemma loop_traced_unfold (node : Node) (here : Path) (result : list Node)
    (log : list Path) :
  loop_traced fn node here (result, log) =
  if fn node then (result ++ [node], log ++ [here])
  else fold_lefti (fun i st child => loop_traced fn child (here ++ [i]) st) 0
         (forEachChild node) (result, log ++ [here]).
Proof. destruct node; reflexivity. Qed.

Lemma preorder_unfold (node : Node) :
  preorder node =
  ([], node) ::
  flat_mapi (fun i child => map (prod_map (cons i) id) (preorder child)) 0
    (forEachChild node).
Proof.
  destruct node; cbn [preorder forEachChild flat_mapi]; try reflexivity.
  now rewrite app_nil_r.
Qed.

(** The accumulator only ever grows at its end. *)
Lemma loop_app (node : Node) :
  forall result, loop fn node result = result ++ loop fn node [].
Proof.
  induction node as [node IH] using Node_children_ind. intros result.
  rewrite !loop_unfold. destruct (fn node); [reflexivity|].
  revert result. induction (forEachChild node) as [|c l IHl]; intros result; cbn.
  - now rewrite app_nil_r.
  - apply Forall_cons in IH as [Hc Hl].
    rewrite (IHl Hl (loop fn c result)), (IHl Hl (loop fn c [])).
    rewrite (Hc result). now rewrite app_assoc.
Qed.

Lemma fold_loop_flat_map (l : list Node) (result : list Node) :
  fold_left (fun r child => loop fn child r) l result
  = result ++ flat_map (fun child => collect child fn) l.
Proof.
  revert result. induction l as [|c l IH]; intros result; cbn.
  - now rewrite app_nil_r.
  - rewrite IH, (loop_app c result). now rewrite <- app_assoc.
Qed.

(** A matching node is collected and its subtree left alone; otherwise
    the children are collected from, left to right. *)
Lemma collect_unfold (node : Node) :
  collect node fn =
  if fn node then [node] else flat_map (fun child => collect child fn) (forEachChild node).
Proof.
  unfold collect at 1. rewrite loop_unfold. destruct (fn node); [reflexivity|].
  apply fold_loop_flat_map.
Qed.

End Collect.

Section Walk.

Variable fn : Node -> bool.

Lemma walked_unfold (node : Node) :
  walked fn node =
  ([], node) ::
  (if fn node then []
   else flat_mapi (fun i child => map (prod_map (cons i) id) (walked fn child)) 0
          (forEachChild node)).
Proof.
  unfold walked at 1. rewrite preorder_unfold, filter_cons_True by exact I.
  f_equal. rewrite filter_flat_mapi.
  destruct (fn node) eqn:Hfn.
  - apply flat_mapi_nil. intros j c Hj. cbn [Nat.add].
    rewrite filter_map_comm.
    rewrite filter_none; [reflexivity|].
    intros [q x] _. cbn. rewrite Hfn. cbn. tauto.
  - apply flat_mapi_ext. intros j c Hj. cbn [Nat.add].
    rewrite filter_map_comm. f_equal. unfold walked.
    apply filter_ext_in. intros [q x] _. cbn. now rewrite Hfn, Hj.
Qed.

Lemma collect_walked (node : Node) :
  collect node fn = map snd (filter (fun pc => fn pc.2) (walked fn node)).
Proof.
  induction node as [node IH] using Node_children_ind.
  rewrite collect_unfold, walked_unfold, filter_cons. cbn [snd].
  destruct (fn node) eqn:Hfn.
  - rewrite decide_True by exact I. reflexivity.
  - rewrite decide_False by (intros []). 
    induction (forEachChild node) as [|c l IHl] in IH |- * using rev_ind.
    + reflexivity.
    + apply Forall_app in IH as [Hl Hc]. apply Forall_inv in Hc.
      rewrite flat_map_app, flat_mapi_app, filter_app, map_app, <- (IHl Hl).
      f_equal. cbn. rewrite !app_nil_r, Hc.
      rewrite filter_map_comm, map_map. cbn.
      apply map_ext. now intros [].
Qed.

Lemma fold_loop_traced (here : Path) (l : list Node) :
  Forall (fun child => forall here result log,
            loop_traced fn child here (result, log)
            = (result ++ collect child fn, log ++ map (app here) (map fst (walked fn child)))) l ->
  forall i result log,
    fold_lefti (fun i st child => loop_traced fn child (here ++ [i]) st) i l (result, log)
    = (result ++ flat_map (fun child => collect child fn) l,
       log ++ map (app here)
                (map fst (flat_mapi (fun i child => map (prod_map (cons i) id) (walked fn child))
                            i l))).
Proof.
  induction 1 as [|c l Hc _ IH]; intros i result log; cbn.
  - now rewrite !app_nil_r.
  - rewrite Hc, IH. rewrite !map_app, !app_assoc. do 3 f_equal.
    rewrite !map_map. apply map_ext. intros [q x]. cbn.
    now rewrite <- app_assoc.
Qed.

(** What the traced walk adds to its two accumulators. *)
Lemma loop_traced_spec (node : Node) :
  forall here result log,
    loop_traced fn node here (result, log)
    = (result ++ collect node fn, log ++ map (app here) (map fst (walked fn node))).
Proof.
  induction node as [node IH] using Node_children_ind. intros here result log.
  rewrite loop_traced_unfold, collect_unfold, walked_unfold.
  destruct (fn node).
  - cbn. now rewrite app_nil_r.
  - rewrite (fold_loop_traced here _ IH). cbn [map fst].
    rewrite app_nil_r, <- app_assoc. reflexivity.
Qed.

(** Dropping the log of the traced walk gives [loop]. *)
Lemma loop_traced_result (node : Node) (here : Path) (result : list Node) (log : list Path) :
  (loop_traced fn node here (result, log)).1 = loop fn node result.
Proof. rewrite loop_traced_spec, loop_app. reflexivity. Qed.

(** [preorder] lists every node of the tree, once, under its path. *)
Lemma elem_of_preorder (node : Node) :
  forall p c, (p, c) ∈ preorder node <-> node_at node p = Some c.
Proof.
  induction node as [node IH] using Node_children_ind. intros p c.
  rewrite preorder_unfold, elem_of_cons, elem_of_flat_mapi.
  rewrite Forall_lookup in IH.
  destruct p as [|i q]; cbn [node_at].
  - split.
    + intros [H|(j & x & Hj & H)]; [congruence|].
      apply list_elem_of_fmap in H as ([q y] & H & _). discriminate.
    + intros [= ->]. now left.
  - split.
    + intros [H|(j & x & Hj & H)]; [discriminate|].
      apply list_elem_of_fmap in H as ([q' y] & [= -> -> ->] & H).
      cbn [Nat.add] in *. rewrite Hj. now apply (IH _ _ Hj).
    + intros H. right. destruct (forEachChild node !! i) as [x|] eqn:Hi; [|discriminate].
      exists i, x. split; [exact Hi|]. cbn [Nat.add].
      apply list_elem_of_fmap. exists (q, c). split; [reflexivity|].
      now apply (IH _ _ Hi).
Qed.

Lemma NoDup_flat_mapi_paths (f : nat -> Node -> list Path) (l : list Node) (i : nat) :
  (forall j x, l !! j = Some x -> NoDup (f (i + j) x)) ->
  (forall j x p, l !! j = Some x -> p ∈ f (i + j) x -> exists q, p = (i + j) :: q) ->
  NoDup (flat_mapi f i l).
Proof.
  revert i. induction l as [|x l IH]; intros i Hnd Hhead; cbn; [constructor|].
  apply NoDup_app. split; [|split].
  - specialize (Hnd 0 x eq_refl). now rewrite Nat.add_0_r in Hnd.
  - intros p Hp Hp'. apply elem_of_flat_mapi in Hp' as (j & y & Hj & Hp').
    destruct (Hhead 0 x p eq_refl) as (q & ->); [now rewrite Nat.add_0_r|].
    destruct (Hhead (S j) y (i + 0 :: q) Hj) as (q' & Heq).
    + now replace (i + S j) with (S i + j) by lia.
    + injection Heq as Heq _. lia.
  - apply IH.
    + intros j y Hj. replace (S i + j) with (i + S j) by lia. now apply Hnd.
    + intros j y p Hj Hp. replace (S i + j) with (i + S j) in * by lia.
      now apply (Hhead (S j) y).
Qed.

Lemma NoDup_preorder (node : Node) : NoDup (map fst (preorder node)).
Proof.
  induction node as [node IH] using Node_children_ind.
  rewrite preorder_unfold. cbn [map fst]. rewrite map_flat_mapi.
  rewrite Forall_lookup in IH. constructor.
  - intros H. apply elem_of_flat_mapi in H as (j & x & _ & H).
    rewrite map_map in H. apply list_elem_of_fmap in H as ([q y] & H & _). discriminate.
  - apply NoDup_flat_mapi_paths.
    + intros j x Hj. rewrite map_map. cbn.
      specialize (IH _ _ Hj).
      rewrite (map_ext _ (fun pc => cons j (fst pc))) by (now intros []).
      rewrite <- (map_map fst (cons j)).
      apply (NoDup_fmap_2 (cons j)). exact IH.
    + intros j x p Hj Hp. rewrite map_map in Hp.
      apply list_elem_of_fmap in Hp as ([q y] & -> & _). now exists q.
Qed.

End Walk.

Lemma reachable_node_at (fn : Node -> bool) (p : Path) :
  forall node, reachable fn node p = true -> is_Some (node_at node p).
Proof.
  induction p as [|i q IH]; intros node H; cbn in *; [eauto|].
  apply andb_prop in H as [_ H].
  destruct (forEachChild node !! i); [now apply IH | discriminate].
Qed.

(** C7. [collect] keeps a node that matches and does not go below it, and
    otherwise collects from the children in turn; its result is the nodes
    that match and lie under no other match, in the order of the source
    text. The walk calls the predicate once on every node that no match
    lies above, in that same order, and on no other node. The collector is
    a function of the tree and the predicate alone. *)
Theorem collect_walk (n : Node) (fn : Node -> bool) :
  let traced := loop_traced fn n [] ([], []) in
  traced.1 = collect n fn
  /\ collect n fn
     = (if fn n then [n] else flat_map (fun child => collect child fn) (forEachChild n))
  /\ collect n fn
     = map snd (filter (fun pc => reachable fn n pc.1 && fn pc.2) (preorder n))
  /\ traced.2 = filter (fun p => reachable fn n p) (map fst (preorder n))
  /\ NoDup traced.2
  /\ (forall p, p ∈ traced.2 <-> reachable fn n p = true)
  /\ (forall p c, (p, c) ∈ preorder n <-> node_at n p = Some c)
  /\ NoDup (map fst (preorder n)).
Proof.
  cbn zeta.
  assert (Hlog : (loop_traced fn n [] ([], [])).2
                 = filter (fun p => reachable fn n p) (map fst (preorder n))).
  { rewrite loop_traced_spec. cbn [snd app]. unfold walked.
    rewrite (filter_map_comm fst). rewrite map_map. cbn.
    apply map_ext. now intros []. }
  split; [apply loop_traced_result|].
  split; [apply collect_unfold|].
  split.
  { rewrite collect_walked. unfold walked. rewrite list_filter_filter. f_equal.
    apply filter_ext_in. intros [p c] _. cbn. rewrite andb_True. tauto. }
  split; [exact Hlog|].
  split; [rewrite Hlog; apply NoDup_filter, NoDup_preorder|].
  split; [|split; [apply elem_of_preorder | apply NoDup_preorder]].
  intros p. rewrite Hlog, list_elem_of_filter, Is_true_true. split; [tauto|].
  intros H. split; [exact H|].
  destruct (reachable_node_at fn p n H) as [c Hc].
  apply list_elem_of_fmap. exists (p, c). split; [reflexivity|].
  now apply elem_of_preorder.
Qed.

(** C7 on a small tree: a call inside the arguments of a matching call is
    not collected, a later sibling call is. *)
Example collect_nested_call :
  let info := {| pos := 0; getText := "nls.localize" |} in
  let callee := Identifier info "localize" in
  let inner := CallExpression info callee [] in
  let outer := CallExpression info callee [inner] in
  let tree := OtherNode info None [outer; inner] in
  collect tree isLocalizeCall = [outer; inner]
  /\ (loop_traced isLocalizeCall tree [] ([], [])).2 = [[]; [0]; [1]].
Proof. split; reflexivity. Qed.

(** * Proofs: insertion into the catalog *)

Section Insert.

Variables key value : string.

Lemma in_step_next parts done part todo i :
  in_step parts done (part :: todo) i -> in_step parts (done ++ [part]) todo (S i).
Proof.
  intros [-> ->]. split; [now rewrite <- app_assoc | rewrite length_app; cbn; lia].
Qed.

Lemma in_step_last parts done part todo i :
  in_step parts done (part :: todo) i ->
  (i =? length parts - 1) = bool_decide (todo = []).
Proof.
  intros [-> ->]. rewrite length_app. cbn [length].
  destruct todo as [|p todo]; cbn [length].
  - rewrite bool_decide_eq_true_2 by reflexivity. apply Nat.eqb_eq. lia.
  - rewrite bool_decide_eq_false_2 by discriminate. apply Nat.eqb_neq. lia.
Qed.

Lemma in_step_take parts done part todo i :
  in_step parts done (part :: todo) i -> take (i + 1) parts = done ++ [part].
Proof.
  intros [-> ->]. rewrite take_app_add'; [|reflexivity]. reflexivity.
Qed.

(** The callback at the last segment. *)
Lemma insert_forEach_last parts done part i localization :
  in_step parts done [part] i ->
  insert_forEach key value parts i [part] localization =
  if is_object (typeof (localization !! part)) then
    (localization, Err ("Multiple tranlation keys already exist at '" +:+ key +:+ "'"))
  else (<[part := Str value]> localization, Ok tt).
Proof.
  intros H. cbn [insert_forEach]. rewrite (in_step_last _ _ _ _ _ H).
  rewrite bool_decide_eq_true_2 by reflexivity. reflexivity.
Qed.

(** The callback at a segment before the last. *)
Lemma insert_forEach_inner parts done part next todo i localization :
  in_step parts done (part :: next :: todo) i ->
  insert_forEach key value parts i (part :: next :: todo) localization =
  if is_string (typeof (localization !! part)) then
    (localization,
     Err ("String entry already exists at '" +:+ join "/" (done ++ [part]) +:+ "'"))
  else
    let entry := if falsy (localization !! part) then ∅
                 else entry_object (localization !! part) in
    let '(entry', outcome) :=
      insert_forEach key value parts (S i) (next :: todo) entry in
    (<[part := Obj entry']> (<[part := Obj entry]> localization), outcome).
Proof.
  intros H. cbn [insert_forEach]. rewrite (in_step_last _ _ _ _ _ H).
  rewrite bool_decide_eq_false_2 by discriminate.
  now rewrite (in_step_take _ _ _ _ _ H).
Qed.

(** Nothing can be in the way in an empty catalog. *)
Lemma insert_forEach_empty parts :
  forall todo done i,
    in_step parts done todo i ->
    (insert_forEach key value parts i todo ∅).2 = Ok tt.
Proof.
  induction todo as [|part todo IH]; intros done i H; [reflexivity|].
  destruct todo as [|next todo].
  - rewrite (insert_forEach_last _ _ _ _ _ H). now rewrite lookup_empty.
  - rewrite (insert_forEach_inner _ _ _ _ _ _ _ H). rewrite lookup_empty.
    cbn [typeof is_string falsy].
    specialize (IH _ _ (in_step_next _ _ _ _ _ H)).
    destruct (insert_forEach key value parts (S i) (next :: todo) ∅). exact IH.
Qed.

(** A callback that throws has changed nothing: the objects it went
    through were there already, and storing them again is no change. *)
Lemma insert_forEach_err_unchanged parts :
  forall todo done i localization message,
    in_step parts done todo i ->
    (insert_forEach key value parts i todo localization).2 = Err message ->
    (insert_forEach key value parts i todo localization).1 = localization.
Proof.
  induction todo as [|part todo IH]; intros done i localization message H Herr;
    [discriminate|].
  destruct todo as [|next todo].
  - rewrite (insert_forEach_last _ _ _ _ _ H) in *.
    destruct (is_object (typeof (localization !! part))); [reflexivity|discriminate].
  - rewrite (insert_forEach_inner _ _ _ _ _ _ _ H) in *.
    destruct (localization !! part) as [[s|m]|] eqn:Hpart;
      cbn [typeof is_string falsy entry_object] in *.
    + reflexivity.
    + specialize (IH _ _ m message (in_step_next _ _ _ _ _ H)).
      destruct (insert_forEach key value parts (S i) (next :: todo) m) as [m' o].
      cbn [fst snd] in *. rewrite (IH Herr), insert_insert_eq. now apply insert_id.
    + pose proof (insert_forEach_empty parts _ _ _ (in_step_next _ _ _ _ _ H)) as Hok.
      destruct (insert_forEach key value parts (S i) (next :: todo) ∅) as [m' o].
      cbn [fst snd] in *. congruence.
Qed.




(** A callback that returns has put the value at the end of the way. *)
Lemma insert_forEach_ok_resolve parts :
  forall todo done i localization,
    in_step parts done todo i ->
    todo <> [] ->
    (insert_forEach key value parts i todo localization).2 = Ok tt ->
    resolve (insert_forEach key value parts i todo localization).1 todo
    = Some (Str value).
Proof.
  induction todo as [|part todo IH]; intros done i localization H Hne Hok;
    [congruence|].
  destruct todo as [|next todo].
  - rewrite (insert_forEach_last _ _ _ _ _ H) in *.
    destruct (is_object (typeof (localization !! part))); [discriminate|].
    cbn. now rewrite lookup_insert_eq.
  - rewrite (insert_forEach_inner _ _ _ _ _ _ _ H) in *.
    destruct (is_string (typeof (localization !! part))); [discriminate|].
    cbn zeta in *.
    specialize (IH _ _ (if falsy (localization !! part) then ∅
                        else entry_object (localization !! part))
                  (in_step_next _ _ _ _ _ H) ltac:(discriminate)).
    destruct (insert_forEach key value parts (S i) (next :: todo) _) as [m' o].
    cbn [fst snd resolve] in *. rewrite lookup_insert_eq. now apply IH.
Qed.

End Insert.

Section InsertTwice.

Variable key : string.


End InsertTwice.

Lemma split_slash_nonempty (key : string) : split_slash key <> [].
Proof.
  induction key as [|c key IH]; cbn; [discriminate|].
  destruct (Ascii.eqb c slash); [discriminate|].
  destruct (split_slash key); [congruence|discriminate].
Qed.

Lemma in_step_start (parts : list string) : in_step parts [] parts 0.
Proof. split; reflexivity. Qed.

(** Joining the segments of a key gives the key back. *)
Lemma join_split_slash (key : string) : join "/" (split_slash key) = key.
Proof.
  unfold join. induction key as [|c key IH]; [reflexivity|].
  cbn [split_slash]. destruct (Ascii.eqb_spec c slash) as [->|Hc].
  - pose proof (split_slash_nonempty key) as Hne.
    destruct (split_slash key) as [|p ps]; [congruence|].
    change (String.concat "/" (EmptyString :: p :: ps))
      with (EmptyString +:+ "/" +:+ String.concat "/" (p :: ps)).
    now rewrite IH.
  - pose proof (split_slash_nonempty key) as Hne.
    destruct (split_slash key) as [|p ps]; [congruence|].
    destruct ps as [|p' ps]; cbn in IH |- *; now rewrite <- IH.
Qed.

Lemma prefix_append (s t : string) : String.prefix s (s +:+ t) = true.
Proof.
  induction s as [|c s IH]; [now destruct t|].
  rewrite append_cons. cbn. destruct (ascii_dec c c); [exact IH|congruence].
Qed.

(** The segments up to some point, joined, are the beginning of the
    joined whole. *)
Lemma join_take_prefix (parts : list string) (n : nat) :
  0 < n -> startsWith (join "/" parts) (join "/" (take n parts)) = true.
Proof.
  unfold startsWith, join. revert n. induction parts as [|p parts IH]; intros n Hn.
  - now destruct n.
  - destruct n as [|n]; [lia|]. cbn [take].
    destruct parts as [|q parts].
    + rewrite take_nil. cbn. rewrite <- (append_empty_r p) at 2. apply prefix_append.
    + destruct n as [|n].
      * cbn [take]. cbn [String.concat]. apply prefix_append.
      * specialize (IH (S n) ltac:(lia)). cbn [take] in IH |- *.
        change (String.concat "/" (p :: q :: take n parts))
          with (p +:+ "/" +:+ String.concat "/" (q :: take n parts)).
        change (String.concat "/" (p :: q :: parts))
          with (p +:+ "/" +:+ String.concat "/" (q :: parts)).
        rewrite <- !append_assoc.
        generalize (p +:+ "/"). intros s. clear -IH.
        induction s as [|c s IHs]; [exact IH|].
        rewrite !append_cons. cbn. destruct (ascii_dec c c); [exact IHs|congruence].
Qed.


(** * Proofs: insertion in the store *)

Section StoreInsert.

Variables key value : string.

(** Storing what is there already changes nothing. *)
Lemma heap_store_same (h : Heap) (l : positive) (o : gmap string Value) (part : string)
    (v : Value) :
  h !! l = Some o -> o !! part = Some v -> heap_store h l part v = h.
Proof.
  intros Hl Hpart. unfold heap_store, object_at. rewrite Hl. cbn.
  rewrite (insert_id o) by exact Hpart. now apply insert_id.
Qed.

Lemma heap_insert_forEach_last parts done part i h localization :
  in_step parts done [part] i ->
  heap_insert_forEach key value parts i [part] h localization =
  if is_object (heap_typeof (object_at h localization !! part)) then
    (h, Err ("Multiple tranlation keys already exist at '" +:+ key +:+ "'"))
  else (heap_store h localization part (VStr value), Ok tt).
Proof.
  intros H. cbn [heap_insert_forEach]. rewrite (in_step_last _ _ _ _ _ H).
  rewrite bool_decide_eq_true_2 by reflexivity. reflexivity.
Qed.

Lemma heap_insert_forEach_inner parts done part next todo i h localization :
  in_step parts done (part :: next :: todo) i ->
  heap_insert_forEach key value parts i (part :: next :: todo) h localization =
  match object_at h localization !! part with
  | Some (VStr s) =>
      (h, Err ("String entry already exists at '" +:+ join "/" (done ++ [part]) +:+ "'"))
  | Some (VRef l) =>
      heap_insert_forEach key value parts (S i) (next :: todo)
        (heap_store h localization part (VRef l)) l
  | None =>
      let l := fresh (dom h) in
      heap_insert_forEach key value parts (S i) (next :: todo)
        (heap_store (<[l := ∅]> h) localization part (VRef l)) l
  end.
Proof.
  intros H. cbn [heap_insert_forEach]. rewrite (in_step_last _ _ _ _ _ H).
  rewrite bool_decide_eq_false_2 by discriminate.
  rewrite (in_step_take _ _ _ _ _ H).
  destruct (object_at h localization !! part) as [[s|l]|]; reflexivity.
Qed.



End StoreInsert.


(** The references met are references of the store. *)
Lemma repr_allocated (h : Heap) (l : positive) (t : Localization) (fp : gset positive) :
  repr h l t fp -> forall l', l' ∈ fp -> is_Some (h !! l').
Proof.
  intros Hrepr.
  induction Hrepr using repr_mut
    with (P0 := fun _ _ fp => forall l', l' ∈ fp -> is_Some (h !! l')).
  - intros l' Hl'. apply H4 in Hl' as [->|[k Hk]]; [eauto|]. now apply (H1 k).
  - intros l' Hl'. now apply elem_of_empty in Hl'.
  - intros l' Hl'. now apply elem_of_empty in Hl'.
  - exact IHHrepr.
Qed.

(** Only the objects met matter. *)
Lemma repr_frame (h : Heap) (l : positive) (t : Localization) (fp : gset positive) :
  repr h l t fp ->
  forall h' : Heap, (forall l', l' ∈ fp -> h' !! l' = h !! l') -> repr h' l t fp.
Proof.
  intros Hrepr.
  induction Hrepr using repr_mut
    with (P0 := fun v e fp =>
                  forall h' : Heap, (forall l', l' ∈ fp -> h' !! l' = h !! l') ->
                                    repr_value h' v e fp).
  - intros h' Hsame. apply (repr_object h' l o t fps fp); auto.
    + rewrite Hsame; [assumption|]. apply H4. now left.
    + intros k. apply H1. intros l' Hl'. apply Hsame, H4. right. now exists k.
  - intros h' _. constructor.
  - intros h' _. constructor.
  - intros h' Hsame. constructor. now apply IHHrepr.
Qed.

Lemma repr_value_frame (h h' : Heap) (v : option Value) (e : option Entry)
    (fp : gset positive) :
  repr_value h v e fp ->
  (forall l', l' ∈ fp -> h' !! l' = h !! l') ->
  repr_value h' v e fp.
Proof.
  intros Hv Hsame. destruct Hv; constructor. now apply (repr_frame h).
Qed.

Lemma repr_value_allocated (h : Heap) (v : option Value) (e : option Entry)
    (fp : gset positive) :
  repr_value h v e fp -> forall l', l' ∈ fp -> is_Some (h !! l').
Proof.
  intros Hv l' Hl'. destruct Hv; try (now apply elem_of_empty in Hl').
  now apply (repr_allocated h l t fp).
Qed.

(** The empty catalog is one empty object. *)
Lemma repr_empty (h : Heap) (l : positive) : h !! l = Some ∅ -> repr h l ∅ {[l]}.
Proof.
  intros Hl. apply (repr_object h l ∅ ∅ (fun _ => ∅)); [exact Hl| | | |].
  - intros k. rewrite !lookup_empty. constructor.
  - intros k k' _. apply disjoint_empty_l.
  - intros k. apply not_elem_of_empty.
  - intros l'. rewrite elem_of_singleton. split; [auto|].
    intros [->|[k Hk]]; [reflexivity|]. now apply elem_of_empty in Hk.
Qed.

(** A store that holds a catalog is closed where the catalog is. *)
Lemma repr_lookup (h : Heap) (l : positive) (t : Localization) (fp : gset positive) :
  repr h l t fp ->
  exists o fps,
    h !! l = Some o
    /\ (forall k, repr_value h (o !! k) (t !! k) (fps k))
    /\ (forall k k', k <> k' -> fps k ## fps k')
    /\ (forall k, l ∉ fps k)
    /\ (forall l', l' ∈ fp <-> l' = l \/ exists k, l' ∈ fps k).
Proof. intros Hrepr. destruct Hrepr. eauto 10. Qed.

(** An object one property of which has changed, the rest of the store
    being as it was where the other properties lead. *)
Lemma repr_update (h h' : Heap) (l : positive) (o o' : gmap string Value)
    (t t' : Localization) (fps : string -> gset positive) (fp fp_part : gset positive)
    (part : string) :
  h !! l = Some o ->
  (forall k, repr_value h (o !! k) (t !! k) (fps k)) ->
  (forall k k', k <> k' -> fps k ## fps k') ->
  (forall k, l ∉ fps k) ->
  (forall l', l' ∈ fp <-> l' = l \/ exists k, l' ∈ fps k) ->
  h' !! l = Some o' ->
  (forall k, k <> part -> o' !! k = o !! k) ->
  (forall k, k <> part -> t' !! k = t !! k) ->
  repr_value h' (o' !! part) (t' !! part) fp_part ->
  (forall k l', k <> part -> l' ∈ fps k -> h' !! l' = h !! l') ->
  (forall k, k <> part -> fps k ## fp_part) ->
  l ∉ fp_part ->
  repr h' l t' ((fp ∖ fps part) ∪ fp_part).
Proof.
  intros Hl Hvals Hdisj Hroot Hfp Hl' Ho' Ht' Hpart Hsame Hapart Hrootpart.
  apply (repr_object h' l o' t'
           (fun k => if decide (k = part) then fp_part else fps k)); [exact Hl'| | | |].
  - intros k. destruct (decide (k = part)) as [->|Hk]; [exact Hpart|].
    rewrite (Ho' k Hk), (Ht' k Hk).
    apply (repr_value_frame h); [apply Hvals|]. intros l0 Hl0. now apply (Hsame k).
  - intros k k' Hkk'. destruct (decide (k = part)) as [->|Hk], (decide (k' = part)) as [->|Hk'].
    + congruence.
    + symmetry. now apply Hapart.
    + now apply Hapart.
    + now apply Hdisj.
  - intros k. destruct (decide (k = part)); [exact Hrootpart|apply Hroot].
  - intros l0. rewrite elem_of_union, elem_of_difference, Hfp. split.
    + intros [[[->|[k Hk]] Hnot]|Hin].
      * now left.
      * right. exists k. destruct (decide (k = part)) as [->|]; [contradiction|exact Hk].
      * right. exists part. now rewrite decide_True.
    + intros [->|[k Hk]].
      * left. split; [now left|apply Hroot].
      * destruct (decide (k = part)) as [->|Hne]; [now right|].
        left. split; [right; now exists k|].
        intros Hin. exact (Hdisj k part Hne l0 Hk Hin).
Qed.

Section Simulation.

Variables key value : string.

(** On a store that holds a catalog, the callback of the store does what
    the callback of the catalog does, and the store holds the catalog the
    latter returns. Objects the catalog does not consist of are left as
    they were. *)
Lemma heap_insert_forEach_simulation parts :
  forall todo done i h l t fp,
    in_step parts done todo i ->
    repr h l t fp ->
    exists fp',
      (heap_insert_forEach key value parts i todo h l).2
      = (insert_forEach key value parts i todo t).2
      /\ repr (heap_insert_forEach key value parts i todo h l).1 l
              (insert_forEach key value parts i todo t).1 fp'
      /\ (forall l', is_Some (h !! l') -> l' ∉ fp ->
                     (heap_insert_forEach key value parts i todo h l).1 !! l' = h !! l')
      /\ (forall l', is_Some (h !! l') ->
                     is_Some ((heap_insert_forEach key value parts i todo h l).1 !! l'))
      /\ (forall l', l' ∈ fp' -> l' ∈ fp \/ h !! l' = None).
Proof.
  induction todo as [|part todo IH]; intros done i h l t fp H Hrepr.
  { exists fp. cbn. repeat split; auto. }
  destruct (repr_lookup h l t fp Hrepr) as (o & fps & Hl & Hvals & Hdisj & Hroot & Hfp).
  assert (object_at h l = o) as Hobj by (unfold object_at; now rewrite Hl).
  assert (Hlfp : l ∈ fp) by (apply Hfp; now left).
  assert (Halloc : forall k l', l' ∈ fps k -> is_Some (h !! l'))
    by (intros k l' Hk; exact (repr_value_allocated h _ _ _ (Hvals k) l' Hk)).
  pose proof (Hvals part) as Hpart.
  destruct todo as [|next todo].
  - (* the last segment *)
    rewrite (heap_insert_forEach_last _ _ _ _ _ _ _ _ H),
      (insert_forEach_last _ _ _ _ _ _ _ H), Hobj.
    inversion Hpart as [Ho Ht Hf|s Ho Ht Hf|l1 t1 fp1 Hr1 Ho Ht Hf];
      cbn [heap_typeof typeof is_object fst snd].
    + exists ((fp ∖ fps part) ∪ ∅). split; [reflexivity|]. split; [|split; [|split]].
      * apply (repr_update h _ l o (<[part := VStr value]> o) t _ fps fp ∅ part);
          try assumption.
        -- unfold heap_store. rewrite Hobj. apply lookup_insert_eq.
        -- intros k Hk. now apply lookup_insert_ne.
        -- intros k Hk. now apply lookup_insert_ne.
        -- rewrite !lookup_insert_eq. constructor.
        -- intros k l' Hk Hl'. unfold heap_store. apply lookup_insert_ne.
           intros <-. exact (Hroot k Hl').
        -- intros k _. apply disjoint_empty_r.
        -- apply not_elem_of_empty.
      * intros l' _ Hl'. unfold heap_store. apply lookup_insert_ne. congruence.
      * intros l' Hsome. unfold heap_store.
        destruct (decide (l = l')) as [->|Hne];
          [rewrite lookup_insert_eq; eauto | now rewrite lookup_insert_ne].
      * intros l'. rewrite elem_of_union, elem_of_difference.
        intros [[Hin _]|Hin]; [now left | now apply elem_of_empty in Hin].
    + exists ((fp ∖ fps part) ∪ ∅). split; [reflexivity|]. split; [|split; [|split]].
      * apply (repr_update h _ l o (<[part := VStr value]> o) t _ fps fp ∅ part);
          try assumption.
        -- unfold heap_store. rewrite Hobj. apply lookup_insert_eq.
        -- intros k Hk. now apply lookup_insert_ne.
        -- intros k Hk. now apply lookup_insert_ne.
        -- rewrite !lookup_insert_eq. constructor.
        -- intros k l' Hk Hl'. unfold heap_store. apply lookup_insert_ne.
           intros <-. exact (Hroot k Hl').
        -- intros k _. apply disjoint_empty_r.
        -- apply not_elem_of_empty.
      * intros l' _ Hl'. unfold heap_store. apply lookup_insert_ne. congruence.
      * intros l' Hsome. unfold heap_store.
        destruct (decide (l = l')) as [->|Hne];
          [rewrite lookup_insert_eq; eauto | now rewrite lookup_insert_ne].
      * intros l'. rewrite elem_of_union, elem_of_difference.
        intros [[Hin _]|Hin]; [now left | now apply elem_of_empty in Hin].
    + exists fp. repeat split; auto.
  - (* a segment before the last *)
    rewrite (heap_insert_forEach_inner _ _ _ _ _ _ _ _ _ _ H),
      (insert_forEach_inner _ _ _ _ _ _ _ _ _ H), Hobj.
    inversion Hpart as [Ho Ht Hf|s Ho Ht Hf|l1 t1 fp1 Hr1 Ho Ht Hf];
      try rewrite Hf in *; cbn [typeof is_string falsy entry_object fst snd].
    + (* nothing there: a new object *)
      cbn zeta. set (l1 := fresh (dom h)).
      assert (Hfresh : h !! l1 = None)
        by (apply not_elem_of_dom; apply is_fresh).
      assert (Hl1 : l1 <> l) by (intros Heq; rewrite Heq, Hl in Hfresh; discriminate).
      set (h2 := heap_store (<[l1 := ∅]> h) l part (VRef l1)).
      assert (Hh2l : h2 !! l = Some (<[part := VRef l1]> o)).
      { unfold h2, heap_store. rewrite lookup_insert_eq. unfold object_at.
        rewrite lookup_insert_ne by exact Hl1. now rewrite Hl. }
      assert (Hh2l1 : h2 !! l1 = Some ∅).
      { unfold h2, heap_store. rewrite lookup_insert_ne by congruence.
        apply lookup_insert_eq. }
      assert (Hh2 : forall l', l' <> l -> l' <> l1 -> h2 !! l' = h !! l').
      { intros l' Hne Hne1. unfold h2, heap_store.
        rewrite lookup_insert_ne by congruence. now rewrite lookup_insert_ne by congruence. }
      destruct (IH _ _ h2 l1 ∅ {[l1]} (in_step_next _ _ _ _ _ H) (repr_empty h2 l1 Hh2l1))
        as (fp1 & Hout & Hrepr1 & Hframe1 & Hkeep1 & Hnew1).
      destruct (heap_insert_forEach key value parts (S i) (next :: todo) h2 l1) as [h3 r3].
      destruct (insert_forEach key value parts (S i) (next :: todo) ∅) as [e1 r1].
      cbn [fst snd] in *.
      assert (Hh3 : forall l', is_Some (h !! l') -> h3 !! l' = h2 !! l').
      { intros l' Hsome. apply Hframe1.
        - destruct (decide (l' = l)) as [->|Hne]; [rewrite Hh2l; eauto|].
          rewrite Hh2; [exact Hsome|exact Hne|].
          intros ->. rewrite Hfresh in Hsome. now destruct Hsome.
        - rewrite elem_of_singleton. intros ->. rewrite Hfresh in Hsome. now destruct Hsome. }
      assert (Hfp1 : forall l', l' ∈ fp1 -> h !! l' = None).
      { intros l' Hin. destruct (Hnew1 l' Hin) as [Hin1|Hnone].
        - apply elem_of_singleton in Hin1. now subst.
        - destruct (decide (l' = l)) as [->|Hne]; [rewrite Hh2l in Hnone; discriminate|].
          destruct (decide (l' = l1)) as [->|Hne1]; [exact Hfresh|].
          now rewrite <- (Hh2 l' Hne Hne1). }
      exists ((fp ∖ fps part) ∪ fp1). split; [exact Hout|]. split; [|split; [|split]].
      * rewrite insert_insert_eq.
        apply (repr_update h h3 l o (<[part := VRef l1]> o) t _ fps fp fp1 part);
          try assumption.
        -- rewrite Hh3 by eauto. exact Hh2l.
        -- intros k Hk. now apply lookup_insert_ne.
        -- intros k Hk. now apply lookup_insert_ne.
        -- rewrite !lookup_insert_eq. now constructor.
        -- intros k l' Hk Hl'. rewrite Hh3 by (eapply Halloc; eauto).
           apply Hh2.
           ++ intros ->. exact (Hroot k Hl').
           ++ intros ->. destruct (Halloc k l1 Hl') as [? Hsome]. congruence.
        -- intros k Hk l' Hin Hin1. destruct (Halloc k l' Hin) as [? Hsome].
           rewrite (Hfp1 l' Hin1) in Hsome. discriminate.
        -- intros Hin. rewrite (Hfp1 l Hin) in Hl. discriminate.
      * intros l' Hsome Hnot. rewrite Hh3 by exact Hsome. apply Hh2; [congruence|].
        intros ->. rewrite Hfresh in Hsome. now destruct Hsome.
      * intros l' Hsome. rewrite Hh3 by exact Hsome.
        destruct (decide (l' = l)) as [->|Hne]; [rewrite Hh2l; eauto|].
        rewrite Hh2; [exact Hsome|exact Hne|].
        intros ->. rewrite Hfresh in Hsome. now destruct Hsome.
      * intros l'. rewrite elem_of_union, elem_of_difference.
        intros [[Hin _]|Hin]; [now left | right; now apply Hfp1].
    + (* a string there *)
      exists fp. repeat split; auto.
    + (* an object there *)
      assert (Hstore : heap_store h l part (VRef l1) = h)
        by (apply (heap_store_same h l o part (VRef l1)); congruence).
      rewrite Hstore.
      destruct (IH _ _ h l1 t1 (fps part) (in_step_next _ _ _ _ _ H) Hr1)
        as (fp1' & Hout & Hrepr1 & Hframe1 & Hkeep1 & Hnew1).
      destruct (heap_insert_forEach key value parts (S i) (next :: todo) h l1) as [h3 r3].
      destruct (insert_forEach key value parts (S i) (next :: todo) t1) as [e1 r1].
      cbn [fst snd] in *.
      exists ((fp ∖ fps part) ∪ fp1'). split; [exact Hout|]. split; [|split; [|split]].
      * rewrite insert_insert_eq.
        apply (repr_update h h3 l o o t _ fps fp fp1' part); try assumption.
        -- rewrite Hframe1; [exact Hl|eauto|apply Hroot].
        -- reflexivity.
        -- intros k Hk. now apply lookup_insert_ne.
        -- rewrite lookup_insert_eq, <- Ho. now constructor.
        -- intros k l' Hk Hl'. apply Hframe1; [eapply Halloc; eauto|].
           intros Hin. exact (Hdisj k part Hk l' Hl' Hin).
        -- intros k Hk l' Hin Hin1. destruct (Hnew1 l' Hin1) as [Hin'|Hnone].
           ++ exact (Hdisj k part Hk l' Hin Hin').
           ++ destruct (Halloc k l' Hin) as [? Hsome]. congruence.
        -- intros Hin. destruct (Hnew1 l Hin) as [Hin'|Hnone];
             [exact (Hroot part Hin') | congruence].
      * intros l' Hsome Hnot. apply Hframe1; [exact Hsome|].
        intros Hin. apply Hnot, Hfp. right. now exists part.
      * exact Hkeep1.
      * intros l'. rewrite elem_of_union, elem_of_difference.
        intros [[Hin _]|Hin]; [now left|].
        destruct (Hnew1 l' Hin) as [Hin'|Hnone]; [left|now right].
        apply Hfp. right. now exists part.
Qed.

End Simulation.

(** [insert] on the store and [insert] on the catalog the store holds. *)
Lemma heap_insert_simulation (h : Heap) (l : positive) (t : Localization)
    (fp : gset positive) (key value : string) :
  repr h l t fp ->
  (heap_insert h l key value).2 = (insert t key value).2
  /\ exists fp', repr (heap_insert h l key value).1 l (insert t key value).1 fp'.
Proof.
  intros Hrepr. unfold heap_insert, insert.
  destruct (heap_insert_forEach_simulation key value _ _ _ _ h l t fp
              (in_step_start (split_slash key)) Hrepr) as (fp' & Hout & Hrepr' & _).
  eauto.
Qed.

(** A run of insertions throws the same messages on the store and on the
    catalog, and ends with the store holding the catalog. *)
Lemma heap_insert_all_simulation (pairs : list (string * string)) :
  forall h l t fp,
    repr h l t fp ->
    (heap_insert_all h l pairs).2 = (insert_all t pairs).2
    /\ exists fp', repr (heap_insert_all h l pairs).1 l (insert_all t pairs).1 fp'.
Proof.
  induction pairs as [|[key value] pairs IH]; intros h l t fp Hrepr; cbn [heap_insert_all insert_all].
  - eauto.
  - destruct (heap_insert_simulation h l t fp key value Hrepr) as (Hout & fp' & Hrepr').
    destruct (heap_insert h l key value) as [h' r'], (insert t key value) as [t' r].
    cbn [fst snd] in *. subst r'.
    destruct (IH h' l t' fp' Hrepr') as (Hall & fp'' & Hrepr'').
    destruct (heap_insert_all h' l pairs) as [h'' m'], (insert_all t' pairs) as [t'' m].
    cbn [fst snd] in *. subst m'. eauto.
Qed.

(** The catalogs built by insertion from [{}]. *)
Example heap_insert_all_from_empty (pairs : list (string * string)) :
  (heap_insert_all {[ 1%positive := ∅ ]} 1 pairs).2 = (insert_all ∅ pairs).2
  /\ exists fp, repr (heap_insert_all {[ 1%positive := ∅ ]} 1 pairs).1 1
                  (insert_all ∅ pairs).1 fp.
Proof.
  apply (heap_insert_all_simulation pairs _ _ _ {[ 1%positive ]}).
  apply repr_empty. apply lookup_singleton_eq.
Qed.


(** C2 on the example of the specification: [a] then [a/b], and the
    reverse, both fail and leave the catalog of the first insertion. *)
Example insert_a_then_a_b :
  let after_a := (insert ∅ "a" "1").1 in
  let after_a_b := (insert ∅ "a/b" "2").1 in
  insert after_a "a/b" "2" = (after_a, Err "String entry already exists at 'a'")
  /\ insert after_a_b "a" "1"
     = (after_a_b, Err "Multiple tranlation keys already exist at 'a'")
  /\ insert after_a_b "a/b/c" "3"
     = (after_a_b, Err "String entry already exists at 'a/b'").
Proof. repeat split; vm_compute; reflexivity. Qed.



(** C10 on an example: a second value for [a/b] replaces the first, and a
    key that is a string is no conflict for itself. *)
Example insert_same_key_twice :
  let once := (insert ∅ "a/b" "old").1 in
  insert once "a/b" "new" = ((insert ∅ "a/b" "new").1, Ok tt)
  /\ lookup_key (insert once "a/b" "new").1 "a/b" = Some (Str "new").
Proof. split; vm_compute; reflexivity. Qed.

(** [insert] is only seen along the way of its key: the entry at a path
    that is not the beginning of that way is what it was. *)
Lemma insert_forEach_frame (key value : string) parts :
  forall todo done i localization path,
    in_step parts done todo i ->
    ~ path `prefix_of` todo ->
    resolve (insert_forEach key value parts i todo localization).1 path
    = resolve localization path.
Proof.
  induction todo as [|part todo IH]; intros done i localization path H Hpath;
    [reflexivity|].
  destruct path as [|q path]; [exfalso; apply Hpath, prefix_nil|].
  assert (Hother : forall (e : Entry) (l : Localization),
            q <> part -> resolve (<[part := e]> l) (q :: path) = resolve l (q :: path)).
  { intros e l Hq. cbn [resolve]. now rewrite lookup_insert_ne. }
  destruct todo as [|next todo].
  - rewrite (insert_forEach_last _ _ _ _ _ _ _ H).
    destruct (localization !! part) as [[s|m]|] eqn:Hpart;
      cbn [typeof is_object fst]; try reflexivity;
      (destruct (decide (q = part)) as [->|Hq]; [|now apply Hother]);
      (destruct path as [|q' path]; [exfalso; apply Hpath; now exists []|]);
      cbn [resolve]; now rewrite lookup_insert_eq, Hpart.
  - rewrite (insert_forEach_inner _ _ _ _ _ _ _ _ _ H).
    destruct (is_string (typeof (localization !! part))) eqn:Hstr; [reflexivity|].
    cbn zeta.
    set (entry := if falsy (localization !! part) then ∅
                  else entry_object (localization !! part)) in *.
    specialize (IH _ _ entry path (in_step_next _ _ _ _ _ H)).
    destruct (insert_forEach key value parts (S i) (next :: todo) entry) as [e' o].
    cbn [fst] in *.
    destruct (decide (q = part)) as [->|Hq]; [|now rewrite !Hother].
    cbn [resolve]. rewrite lookup_insert_eq.
    rewrite IH by (intros Hp; apply Hpath; now apply prefix_cons).
    assert (path <> []) as Hne by (intros ->; apply Hpath; now exists (next :: todo)).
    subst entry.
    destruct (localization !! part) as [[s|m]|]; cbn in *; try discriminate.
    + reflexivity.
    + destruct path; [congruence|]. cbn. now rewrite lookup_empty.
Qed.

Lemma insert_frame (localization : Localization) (key value : string) (path : list string) :
  ~ path `prefix_of` split_slash key ->
  resolve (insert localization key value).1 path = resolve localization path.
Proof. apply insert_forEach_frame with (done := []). apply in_step_start. Qed.

Lemma prefix_trans (s t u : string) :
  String.prefix s t = true -> String.prefix t u = true -> String.prefix s u = true.
Proof.
  revert t u. induction s as [|c s IH]; intros t u Hst Htu; [now destruct u|].
  destruct t as [|d t]; [discriminate|]. destruct u as [|e u]; [discriminate|].
  cbn in *. destruct (ascii_dec c d) as [->|]; [|discriminate].
  destruct (ascii_dec d e) as [->|]; [|discriminate].
  now apply (IH t u).
Qed.

(** A key whose way begins with the way of another key begins with that
    key. *)
Lemma split_slash_prefix (key key' : string) :
  split_slash key `prefix_of` split_slash key' -> startsWith key' key = true.
Proof.
  intros [rest Hrest].
  rewrite <- (join_split_slash key'), <- (join_split_slash key) at 1.
  assert (split_slash key = take (length (split_slash key)) (split_slash key')) as ->
    by (rewrite Hrest, take_app_length; reflexivity).
  rewrite Hrest. apply join_take_prefix.
  pose proof (split_slash_nonempty key). destruct (split_slash key); [congruence|cbn; lia].
Qed.

(** C2 on the store: after [a/b], a call for [a] and a call for [a/b/c]
    throw and leave the two objects of the store as they are. *)
Example heap_insert_a_b_then_a :
  let h := (heap_insert {[ 1%positive := ∅ ]} 1 "a/b" "2").1 in
  h = {[ 1%positive := {[ "a" := VRef 2 ]}; 2%positive := {[ "b" := VStr "2" ]} ]}
  /\ heap_insert h 1 "a" "1" = (h, Err "Multiple tranlation keys already exist at 'a'")
  /\ heap_insert h 1 "a/b/c" "3" = (h, Err "String entry already exists at 'a/b'").
Proof. repeat split; vm_compute; reflexivity. Qed.



(** * Proofs: the extractors *)

Section Extractors.

Variable source : SourceFile.

Lemma extractString_literal (info : NodeInfo) (text : string) :
  extractString source (StringLiteral info text) = Ok (unescapeString text).
Proof. reflexivity. Qed.

Lemma extractString_other (node : Node) :
  isStringLiteral node = false ->
  extractString source node
  = Err (buildErrorMessage source
           ("'" +:+ getText (node_info node) +:+ "' is not a string constant") node).
Proof. destruct node; intros H; try discriminate; reflexivity. Qed.

(** What the loop over the properties leaves in the map for a relevant
    name. *)
Lemma property_loop_lookup (name : string) :
  includes relevantProps name = true ->
  forall properties propertyMap propertyMap',
    property_loop source properties propertyMap = Ok propertyMap' ->
    match object_property properties name with
    | Some initializer =>
        exists info text, initializer = StringLiteral info text
                          /\ propertyMap' !! name = Some (unescapeString text)
    | None => propertyMap' !! name = propertyMap !! name
    end.
Proof.
  intros Hname.
  induction properties as [|property properties IH]; intros propertyMap propertyMap' Hloop.
  - cbn in *. congruence.
  - cbn [property_loop object_property] in *.
    destruct property as [| | | |pinfo pname pinit|oinfo [oname|] och];
      cbn [property_name] in Hloop; try discriminate;
      try (specialize (IH _ _ Hloop);
           destruct (object_property properties name); exact IH).
    destruct pname as [| |iinfo text| | |]; try discriminate.
    destruct (includes relevantProps text) eqn:Hrel.
    + destruct pinit as [|linfo ltext| | | |]; try discriminate.
      cbn [extractString bind] in Hloop. specialize (IH _ _ Hloop).
      destruct (object_property properties name); [exact IH|].
      destruct (String.eqb_spec text name) as [->|Hne].
      * exists linfo, ltext. split; [reflexivity|]. now rewrite IH, lookup_insert_eq.
      * now rewrite IH, lookup_insert_ne.
    + specialize (IH _ _ Hloop).
      destruct (object_property properties name); [exact IH|].
      destruct (String.eqb_spec text name) as [->|Hne]; [congruence|exact IH].
Qed.

Lemma property_loop_get (name : string) (properties : list Node)
    (propertyMap : gmap string string) :
  includes relevantProps name = true ->
  property_loop source properties ∅ = Ok propertyMap ->
  propertyMap !! name = property_text properties name.
Proof.
  intros Hname Hloop. unfold property_text.
  pose proof (property_loop_lookup name Hname _ _ _ Hloop) as H.
  destruct (object_property properties name).
  - destruct H as (info & text & -> & H). exact H.
  - now rewrite H, lookup_empty.
Qed.

End Extractors.

(** C1, as amended. With string literals as its first two arguments, a call
    gives the pair of the two decoded texts: the key is decoded like the
    value. With fewer than two arguments, or with a first or second
    argument that is not a string literal, the extractor throws; the message
    has the file, line and column of the call or of the offending argument,
    and says what was expected. The loop over the calls then records the
    message and leaves the catalog alone. *)
Theorem extractFromLocalizeCall_shape (source : SourceFile) (options : ExtractionOptions)
    (info : NodeInfo) (callee : Node) (args : list Node) :
  let node := CallExpression info callee args in
  (forall i0 k i1 v rest,
     args = StringLiteral i0 k :: StringLiteral i1 v :: rest ->
     extractFromLocalizeCall source node = Ok (unescapeString k, unescapeString v))
  /\ (forall message localization errors,
        (length args < 2 /\
         message = buildErrorMessage source "Localize call needs at least 2 arguments" node)
        \/ (exists arg0 arg1 rest,
              args = arg0 :: arg1 :: rest /\ isStringLiteral arg0 = false /\
              message = buildErrorMessage source
                          ("'" +:+ getText (node_info arg0) +:+ "' is not a string constant")
                          arg0)
        \/ (exists arg0 arg1 rest,
              args = arg0 :: arg1 :: rest /\ isStringLiteral arg0 = true /\
              isStringLiteral arg1 = false /\
              message = buildErrorMessage source
                          ("'" +:+ getText (node_info arg1) +:+ "' is not a string constant")
                          arg1) ->
        extractFromLocalizeCall source node = Err message
        /\ localize_step source options (localization, errors) node
           = (localization, errors ++ [message])).
Proof.
  cbn zeta. split.
  - intros i0 k i1 v rest ->. reflexivity.
  - intros message localization errors H.
    assert (extractFromLocalizeCall source (CallExpression info callee args) = Err message)
      as Herr.
    { destruct H as [[Hlen ->]|[(arg0 & arg1 & rest & -> & H0 & ->)
                               |(arg0 & arg1 & rest & -> & H0 & H1 & ->)]].
      - destruct args as [|a0 [|a1 rest]]; cbn in Hlen; try lia; reflexivity.
      - cbn [extractFromLocalizeCall]. now rewrite extractString_other.
      - cbn [extractFromLocalizeCall].
        destruct arg0; try discriminate. rewrite extractString_literal. cbn [bind].
        now rewrite extractString_other. }
    split; [exact Herr|]. unfold localize_step. now rewrite Herr.
Qed.

(** C1, the witness: a call with one argument on the second line of its
    file. *)
Lemma extractFromLocalizeCall_shape_witness :
  let source := Sample.file "src/a.ts" [] in
  let call := Sample.localize 100 [Sample.literal 113 "k"] in
  extractFromLocalizeCall source call
  = Err "src/a.ts(2,21): Localize call needs at least 2 arguments"
  /\ localize_step source (Sample.options None) (∅, []) call
     = (∅, ["src/a.ts(2,21): Localize call needs at least 2 arguments"]).
Proof.
  cbn zeta.
  apply (extractFromLocalizeCall_shape _ _ _ _ _).
  left. split; [cbn; lia | reflexivity].
Defined.

(** C1, the counterexample: the key of the call of [nls.localize] with the
    literal backslash-n for a key is a newline, not the text of the
    literal. *)
Lemma extractFromLocalizeCall_decodes_key :
  let source := Sample.file "src/a.ts" [] in
  let k := String backslash "n" in
  let call := Sample.localize 0 [Sample.literal 13 k; Sample.literal 20 "v"] in
  extractFromLocalizeCall source call = Ok (chr newline, "v")
  /\ extractFromLocalizeCall source call <> Ok (k, unescapeString "v").
Proof. cbn zeta. split; [reflexivity | discriminate]. Qed.

Section CommandCall.

Variable source : SourceFile.

Lemma relevant_id : includes relevantProps "id" = true.
Proof. reflexivity. Qed.
Lemma relevant_label : includes relevantProps "label" = true.
Proof. reflexivity. Qed.
Lemma relevant_category : includes relevantProps "category" = true.
Proof. reflexivity. Qed.

(** The extractor on a call whose first argument is an object literal the
    loop over the properties accepts, with the map read off the literal. *)
Lemma extractFromLocalizedCommandCall_unfold info callee oinfo properties more propertyMap :
  property_loop source properties ∅ = Ok propertyMap ->
  let node := CallExpression info callee (ObjectLiteralExpression oinfo properties :: more) in
  extractFromLocalizedCommandCall source node =
  let* labelKey :=
    match more with
    | arg1 :: _ =>
        let* explicit := extractString source arg1 in
        Ok (or_else explicit (property_text properties "id"))
    | [] => Ok (property_text properties "id")
    end in
  let* categoryKey :=
    match more with
    | _ :: arg2 :: _ => let* explicit := extractString source arg2 in Ok (Some explicit)
    | _ => Ok None
    end in
  if negb (truthy labelKey) then TypeScriptError source "No label key found" node
  else if negb (truthy (property_text properties "label")) then
    TypeScriptError source "No default label found" node
  else
    Ok {| label := (defined labelKey, defined (property_text properties "label"));
          category :=
            if truthy categoryKey && truthy (property_text properties "category")
            then Some (defined categoryKey, defined (property_text properties "category"))
            else None |}.
Proof.
  intros Hloop. cbn zeta. cbn [extractFromLocalizedCommandCall]. rewrite Hloop. cbn [bind].
  rewrite (property_loop_get source "id" _ _ relevant_id Hloop).
  rewrite (property_loop_get source "label" _ _ relevant_label Hloop).
  rewrite (property_loop_get source "category" _ _ relevant_category Hloop).
  reflexivity.
Qed.

(** Only a call with an object literal in front gets through. *)
Lemma extractFromLocalizedCommandCall_ok_shape (node : Node) (extracted : LocalizedCommand) :
  extractFromLocalizedCommandCall source node = Ok extracted ->
  exists info callee oinfo properties more propertyMap,
    node = CallExpression info callee (ObjectLiteralExpression oinfo properties :: more)
    /\ property_loop source properties ∅ = Ok propertyMap.
Proof.
  intros H. destruct node as [info callee args| | | | |]; try discriminate.
  destruct args as [|commandObj more]; [discriminate|].
  destruct commandObj as [| | |oinfo properties| |]; try discriminate.
  cbn [extractFromLocalizedCommandCall] in H.
  destruct (property_loop source properties ∅) as [propertyMap|] eqn:Hloop; [|discriminate].
  eauto 10.
Qed.

Lemma truthy_Some (v : option string) :
  truthy v = true <-> exists s, v = Some s /\ s <> EmptyString.
Proof.
  destruct v as [s|]; cbn.
  - rewrite negb_true_iff, String.eqb_neq. split; [eauto|]. now intros (? & [= <-] & ?).
  - split; [discriminate|]. now intros (? & [=] & _).
Qed.

Lemma truthy_defined (v : option string) : truthy v = true -> v = Some (defined v).
Proof. destruct v; [reflexivity|discriminate]. Qed.

End CommandCall.

Lemma extractString_ok (source : SourceFile) (node : Node) (s : string) :
  extractString source node = Ok s ->
  exists info text, node = StringLiteral info text /\ s = unescapeString text.
Proof. destruct node; try discriminate. intros [= <-]. eauto. Qed.

(** C4, as amended. A call the extractor accepts has an object literal in
    front; its result has the label pair, with a key that is not empty and
    the decoded [label] of the literal, not empty either. It has a category
    pair exactly when the third argument is there, the literal has a
    [category], and neither decodes to the empty string; the pair is then
    made of these two. In every other case the result has no category pair,
    and the call is accepted all the same. *)
Theorem extractFromLocalizedCommandCall_pairs (source : SourceFile) (node : Node)
    (extracted : LocalizedCommand) :
  extractFromLocalizedCommandCall source node = Ok extracted ->
  exists info callee oinfo properties more,
    node = CallExpression info callee (ObjectLiteralExpression oinfo properties :: more)
    /\ (label extracted).1 <> EmptyString
    /\ property_text properties "label" = Some (label extracted).2
    /\ (label extracted).2 <> EmptyString
    /\ (forall ck cl,
          category extracted = Some (ck, cl) <->
          (exists i2 t2, more !! 1 = Some (StringLiteral i2 t2) /\ ck = unescapeString t2)
          /\ property_text properties "category" = Some cl
          /\ ck <> EmptyString /\ cl <> EmptyString).
Proof.
  intros H.
  destruct (extractFromLocalizedCommandCall_ok_shape source node extracted H)
    as (info & callee & oinfo & properties & more & propertyMap & -> & Hloop).
  exists info, callee, oinfo, properties, more. split; [reflexivity|].
  rewrite (extractFromLocalizedCommandCall_unfold source _ _ _ _ _ _ Hloop) in H.
  cbn zeta in H.
  match type of H with
  | bind ?lk _ = _ => destruct lk as [labelKey|] eqn:HlabelKey; [|discriminate]
  end.
  cbn [bind] in H.
  match type of H with
  | bind ?ck _ = _ => destruct ck as [categoryKey|] eqn:HcategoryKey; [|discriminate]
  end.
  cbn [bind] in H.
  destruct (truthy labelKey) eqn:Hlk; [|discriminate].
  destruct (truthy (property_text properties "label")) eqn:Hlabel; [|discriminate].
  cbn [negb] in H. injection H as <-. cbn [label category fst snd].
  apply truthy_Some in Hlk as (lk & -> & Hlk).
  pose proof (truthy_defined _ Hlabel) as Hlabel'.
  apply truthy_Some in Hlabel as (dl & Hdl & Hdlne).
  split; [exact Hlk|]. split; [exact Hlabel'|].
  split; [rewrite Hdl; exact Hdlne|].
  intros ck cl.
  assert (Harg2 : forall k, categoryKey = Some k <->
            exists i2 t2, more !! 1 = Some (StringLiteral i2 t2) /\ k = unescapeString t2).
  { intros k. destruct more as [|arg1 [|arg2 rest]]; cbn in HcategoryKey |- *.
    - injection HcategoryKey as <-. split; [discriminate|]. now intros (? & ? & [=] & _).
    - injection HcategoryKey as <-. split; [discriminate|]. now intros (? & ? & [=] & _).
    - destruct (extractString source arg2) as [s|] eqn:Hs; [|discriminate].
      injection HcategoryKey as <-.
      apply extractString_ok in Hs as (i2 & t2 & -> & ->).
      split.
      + intros [= <-]. eauto.
      + intros (? & ? & [= <- <-] & ->). reflexivity. }
  destruct (truthy categoryKey && truthy (property_text properties "category")) eqn:Hboth.
  - apply andb_prop in Hboth as [Hck Hcl].
    pose proof (truthy_defined _ Hck) as Hck'. pose proof (truthy_defined _ Hcl) as Hcl'.
    apply truthy_Some in Hck as (k & Hk & Hkne).
    apply truthy_Some in Hcl as (l & Hl & Hlne).
    rewrite Hk, Hl in *. cbn [defined default] in *. split.
    + intros [= <- <-]. split; [now apply Harg2|]. auto.
    + intros (Hk2 & [= <-] & _ & _). apply Harg2 in Hk2. congruence.
  - split; [discriminate|]. intros (Hk2 & Hl & Hkne & Hlne). exfalso.
    apply Harg2 in Hk2. rewrite Hk2, Hl in Hboth. cbn in Hboth.
    apply andb_false_iff in Hboth as [Hb|Hb]; apply negb_false_iff, String.eqb_eq in Hb;
      congruence.
Qed.

(** C4, the witness: [{id: 'K', label: 'L', category: 'C'}] with the
    explicit keys [K2] and [C2]. *)
Lemma extractFromLocalizedCommandCall_pairs_witness :
  let source := Sample.file "src/a.ts" [] in
  let properties :=
    [Sample.assign 30 "id" "K"; Sample.assign 40 "label" "L";
     Sample.assign 50 "category" "C"] in
  let call := Sample.toLocalizedCommand 0
                [Sample.object 28 properties; Sample.literal 60 "K2";
                 Sample.literal 66 "C2"] in
  let extracted := {| label := ("K2", "L"); category := Some ("C2", "C") |} in
  extractFromLocalizedCommandCall source call = Ok extracted
  /\ exists info callee oinfo properties more,
       call = CallExpression info callee (ObjectLiteralExpression oinfo properties :: more)
       /\ (label extracted).1 <> EmptyString
       /\ property_text properties "label" = Some (label extracted).2
       /\ (label extracted).2 <> EmptyString
       /\ (forall ck cl,
             category extracted = Some (ck, cl) <->
             (exists i2 t2, more !! 1 = Some (StringLiteral i2 t2) /\ ck = unescapeString t2)
             /\ property_text properties "category" = Some cl
             /\ ck <> EmptyString /\ cl <> EmptyString).
Proof.
  cbn zeta. split; [reflexivity|].
  apply (extractFromLocalizedCommandCall_pairs (Sample.file "src/a.ts" [])).
  reflexivity.
Defined.

(** C4, the counterexample: with the empty string for a third argument the
    category key is there, the literal has its [category], and the call is
    accepted without a category pair. *)
Lemma extractFromLocalizedCommandCall_empty_category_key :
  let source := Sample.file "src/a.ts" [] in
  let properties :=
    [Sample.assign 30 "id" "K"; Sample.assign 40 "label" "L";
     Sample.assign 50 "category" "C"] in
  let arg2 := Sample.literal 66 EmptyString in
  let call := Sample.toLocalizedCommand 0
                [Sample.object 28 properties; Sample.literal 60 "K2"; arg2] in
  extractString source arg2 = Ok EmptyString
  /\ property_text properties "category" = Some "C"
  /\ extractFromLocalizedCommandCall source call
     = Ok {| label := ("K2", "L"); category := None |}.
Proof. cbn zeta. repeat split. Qed.

(** C9, as amended. The label key is the decoded [id] of the object
    literal when there is no second argument. A second argument that
    decodes to something other than the empty string is the label key. A
    second argument that decodes to the empty string counts for nothing:
    the call is treated exactly as the call without it, so the key is the
    [id] again, and when [id] is missing or empty both calls fail with the
    same message, that no label key was found. *)
Theorem label_key_falsy_coalescing (source : SourceFile) (info : NodeInfo) (callee : Node)
    (oinfo : NodeInfo) (properties : list Node) :
  let call more :=
    CallExpression info callee (ObjectLiteralExpression oinfo properties :: more) in
  (forall extracted,
     extractFromLocalizedCommandCall source (call []) = Ok extracted ->
     property_text properties "id" = Some (label extracted).1)
  /\ (forall i1 t1 rest extracted,
        extractFromLocalizedCommandCall source (call (StringLiteral i1 t1 :: rest))
        = Ok extracted ->
        (unescapeString t1 <> EmptyString -> (label extracted).1 = unescapeString t1)
        /\ (unescapeString t1 = EmptyString ->
            property_text properties "id" = Some (label extracted).1))
  /\ (forall i1 t1,
        unescapeString t1 = EmptyString ->
        extractFromLocalizedCommandCall source (call [StringLiteral i1 t1])
        = extractFromLocalizedCommandCall source (call []))
  /\ (forall i1 t1 propertyMap,
        unescapeString t1 = EmptyString ->
        property_loop source properties ∅ = Ok propertyMap ->
        truthy (property_text properties "id") = false ->
        extractFromLocalizedCommandCall source (call [StringLiteral i1 t1])
        = Err (buildErrorMessage source "No label key found" (call []))
        /\ extractFromLocalizedCommandCall source (call [])
           = Err (buildErrorMessage source "No label key found" (call []))).
Proof.
  cbn zeta.
  assert (Hkey : forall more extracted labelKey,
    extractFromLocalizedCommandCall source
      (CallExpression info callee (ObjectLiteralExpression oinfo properties :: more))
    = Ok extracted ->
    match more with
    | arg1 :: _ =>
        let* explicit := extractString source arg1 in
        Ok (or_else explicit (property_text properties "id"))
    | [] => Ok (property_text properties "id")
    end = Ok labelKey ->
    labelKey = Some (label extracted).1).
  { intros more extracted labelKey H Hlk.
    destruct (extractFromLocalizedCommandCall_ok_shape source _ _ H)
      as (? & ? & ? & ? & ? & propertyMap & [= <- <- <- <- <-] & Hloop).
    rewrite (extractFromLocalizedCommandCall_unfold source _ _ _ _ _ _ Hloop) in H.
    cbn zeta in H. rewrite Hlk in H. cbn [bind] in H.
    match type of H with
    | bind ?ck _ = _ => destruct ck as [categoryKey|]; [|discriminate]
    end.
    cbn [bind] in H.
    destruct (truthy labelKey) eqn:Htruthy; [|discriminate].
    destruct (truthy (property_text properties "label")); [|discriminate].
    injection H as <-. now apply truthy_defined. }
  split; [|split; [|split]].
  - intros extracted H. now apply (Hkey [] extracted).
  - intros i1 t1 rest extracted H.
    specialize (Hkey _ extracted (or_else (unescapeString t1) (property_text properties "id"))
                  H eq_refl).
    unfold or_else, truthy in Hkey. split; intros Ht1.
    + rewrite (proj2 (String.eqb_neq _ _) Ht1) in Hkey. now injection Hkey.
    + rewrite (proj2 (String.eqb_eq _ _) Ht1) in Hkey. cbn in Hkey. now symmetry.
  - intros i1 t1 Ht1. cbn [extractFromLocalizedCommandCall].
    destruct (property_loop source properties ∅) as [propertyMap|]; [|reflexivity].
    cbn [bind extractString]. rewrite Ht1. reflexivity.
  - intros i1 t1 propertyMap Ht1 Hloop Hid.
    rewrite !(extractFromLocalizedCommandCall_unfold source _ _ _ _ _ _ Hloop).
    cbn zeta. cbn [bind extractString]. rewrite Ht1. unfold or_else. cbn [truthy String.eqb negb].
    cbn [bind]. rewrite Hid. cbn [negb]. split; reflexivity.
Qed.

(** C9, the witness: [{id: 'K', label: 'L'}] with the explicit key [K2],
    and [{label: 'L'}] with the empty string for a key. *)
Lemma label_key_falsy_coalescing_witness :
  let source := Sample.file "src/a.ts" [] in
  let with_id := [Sample.assign 30 "id" "K"; Sample.assign 40 "label" "L"] in
  let without_id := [Sample.assign 40 "label" "L"] in
  let call properties more :=
    CallExpression (Sample.at_ 0 "Command.toLocalizedCommand(...)")
      (Sample.access 0 "Command" "toLocalizedCommand")
      (ObjectLiteralExpression (Sample.at_ 28 "{ ... }") properties :: more) in
  ("K2" = unescapeString "K2"
   /\ property_text with_id "id" = Some "K")
  /\ extractFromLocalizedCommandCall source
       (call without_id [StringLiteral (Sample.at_ 60 "''") EmptyString])
     = Err "src/a.ts(1,1): No label key found".
Proof.
  cbn zeta.
  pose proof (label_key_falsy_coalescing (Sample.file "src/a.ts" [])
                (Sample.at_ 0 "Command.toLocalizedCommand(...)")
                (Sample.access 0 "Command" "toLocalizedCommand")
                (Sample.at_ 28 "{ ... }")) as H.
  split.
  - destruct (H [Sample.assign 30 "id" "K"; Sample.assign 40 "label" "L"])
      as (Hdefault & Hexplicit & _).
    split.
    + apply (Hexplicit (Sample.at_ 60 "'K2'") "K2" []
               {| label := ("K2", "L"); category := None |} eq_refl).
      discriminate.
    + exact (Hdefault {| label := ("K", "L"); category := None |} eq_refl).
  - destruct (H [Sample.assign 40 "label" "L"]) as (_ & _ & _ & Hmissing).
    exact (proj1 (Hmissing (Sample.at_ 60 "''") EmptyString
                    {[ "label" := "L" ]} eq_refl eq_refl eq_refl)).
Defined.

(** C9, the counterexample: without an [id], the call with the empty
    string for a label key and the call without a label key end alike. *)
Lemma label_key_empty_like_absent :
  let source := Sample.file "src/a.ts" [] in
  let properties := [Sample.assign 40 "label" "L"] in
  let explicit_empty :=
    Sample.toLocalizedCommand 0 [Sample.object 28 properties; Sample.literal 60 EmptyString] in
  let absent := Sample.toLocalizedCommand 0 [Sample.object 28 properties] in
  property_text properties "id" = None
  /\ extractFromLocalizedCommandCall source explicit_empty
     = Err "src/a.ts(1,1): No label key found"
  /\ extractFromLocalizedCommandCall source absent
     = Err "src/a.ts(1,1): No label key found".
Proof. cbn zeta. repeat split. Qed.

(** * Proofs: per-file extraction *)

Lemma insert_throws_unchanged (localization : Localization) (key value message : string) :
  (insert localization key value).2 = Err message ->
  insert localization key value = (localization, Err message).
Proof.
  unfold insert. intros Herr.
  pose proof (insert_forEach_err_unchanged _ _ _ _ _ _ _ message
                (in_step_start (split_slash key)) Herr) as Hfst.
  destruct (insert_forEach _ _ _ _ _ _) as [l o]. cbn [fst snd] in *. congruence.
Qed.

Lemma insert_returns_lookup (localization : Localization) (key value : string) :
  (insert localization key value).2 = Ok tt ->
  lookup_key (insert localization key value).1 key = Some (Str value).
Proof.
  apply insert_forEach_ok_resolve with (done := []);
    [apply in_step_start | apply split_slash_nonempty].
Qed.


(** [insert] as the loops see it: the catalog after it and no message, or
    the catalog as it was and the message. *)
Lemma insert_cases (localization : Localization) (key value : string) :
  (exists localization', insert localization key value = (localization', Ok tt)
                         /\ lookup_key localization' key = Some (Str value))
  \/ (exists message, insert localization key value = (localization, Err message)).
Proof.
  destruct (insert localization key value).2 as [[]|message] eqn:Hout.
  - left. exists (insert localization key value).1. split.
    + rewrite <- Hout. now destruct (insert localization key value).
    + now apply insert_returns_lookup.
  - right. exists message. now apply insert_throws_unchanged.
Qed.

Section FileLoops.

Variable source : SourceFile.
Variable options : ExtractionOptions.

(** One turn of the first loop: a call that cannot be extracted from, or
    whose key cannot be inserted, leaves its message and nothing else. *)
Lemma localize_step_cases (localization : Localization) (errors : list string) (call : Node) :
  localize_step source options (localization, errors) call =
  match extractFromLocalizeCall source call with
  | Err message => (localization, errors ++ [message])
  | Ok (key, value) =>
      if isExcluded options key then (localization, errors)
      else match (insert localization key value).2 with
           | Ok _ => ((insert localization key value).1, errors)
           | Err message => (localization, errors ++ [message])
           end
  end.
Proof.
  unfold localize_step.
  destruct (extractFromLocalizeCall source call) as [[key value]|message]; [|reflexivity].
  cbn [fst snd]. destruct (isExcluded options key); [reflexivity|].
  cbn [negb]. unfold try_insert.
  destruct (insert_cases localization key value) as [(l' & -> & _)|(message & ->)];
    reflexivity.
Qed.

(** One turn of the second loop. A message from the category leaves the
    label in the catalog. *)
Lemma command_step_cases (localization : Localization) (errors : list string)
    (command : Node) :
  command_step source options (localization, errors) command =
  match extractFromLocalizedCommandCall source command with
  | Err message => (localization, errors ++ [message])
  | Ok extracted =>
      let with_label :=
        if isExcluded options (label extracted).1 then (localization, Ok tt)
        else insert localization (label extracted).1 (label extracted).2 in
      match with_label.2 with
      | Err message => (localization, errors ++ [message])
      | Ok _ =>
          match category extracted with
          | Some category =>
              if isExcluded options category.1 then (with_label.1, errors)
              else match (insert with_label.1 category.1 category.2).2 with
                   | Ok _ => ((insert with_label.1 category.1 category.2).1, errors)
                   | Err message => (with_label.1, errors ++ [message])
                   end
          | None => (with_label.1, errors)
          end
      end
  end.
Proof.
  unfold command_step.
  destruct (extractFromLocalizedCommandCall source command) as [extracted|message];
    [|reflexivity].
  cbn zeta.
  assert (Hcat : forall l : Localization,
    catch errors
      match category extracted with
      | Some category =>
          if negb (isExcluded options category.1)
          then try_insert l category.1 category.2 (fun l0 => (l0, Ok tt))
          else (l, Ok tt)
      | None => (l, Ok tt)
      end
    = match category extracted with
      | Some category =>
          if isExcluded options category.1 then (l, errors)
          else match (insert l category.1 category.2).2 with
               | Ok _ => ((insert l category.1 category.2).1, errors)
               | Err message => (l, errors ++ [message])
               end
      | None => (l, errors)
      end).
  { intros l. destruct (category extracted) as [[ck cl]|]; [|reflexivity].
    cbn [fst snd]. destruct (isExcluded options ck); [reflexivity|].
    cbn [negb]. unfold try_insert.
    destruct (insert_cases l ck cl) as [(l' & -> & _)|(message & ->)]; reflexivity. }
  destruct (isExcluded options (label extracted).1); cbn [negb fst snd].
  - apply Hcat.
  - unfold try_insert.
    destruct (insert_cases localization (label extracted).1 (label extracted).2)
      as [(l' & -> & _)|(message & ->)]; cbn [fst snd]; [apply Hcat | reflexivity].
Qed.

(** A turn of either loop adds at most one message, at the end. *)
Lemma localize_step_errors (state : FileState) (call : Node) :
  (localize_step source options state call).2 = state.2
  \/ exists message, localize_step source options state call = (state.1, state.2 ++ [message]).
Proof.
  destruct state as [localization errors]. rewrite localize_step_cases. cbn [fst snd].
  destruct (extractFromLocalizeCall source call) as [[key value]|message]; [|eauto].
  destruct (isExcluded options key); [now left|].
  destruct (insert localization key value).2; eauto.
Qed.

Lemma command_step_errors (state : FileState) (command : Node) :
  (command_step source options state command).2 = state.2
  \/ exists message, (command_step source options state command).2 = state.2 ++ [message].
Proof.
  destruct state as [localization errors]. rewrite command_step_cases. cbn [fst snd].
  destruct (extractFromLocalizedCommandCall source command) as [extracted|message]; [|eauto].
  cbn zeta.
  match goal with |- context [match ?w.2 with _ => _ end] => destruct w.2 end; [|eauto].
  destruct (category extracted) as [[ck cl]|]; [|now left].
  cbn [fst snd]. destruct (isExcluded options ck); [now left|].
  match goal with |- context [match ?w with Ok _ => _ | Err _ => _ end] => destruct w end;
    eauto.
Qed.

End FileLoops.

Section FileErrors.

Variable source : SourceFile.
Variable options : ExtractionOptions.

(** A loop whose turns add at most one message each adds at most as many
    messages as it has turns. *)
Lemma fold_step_errors (step : FileState -> Node -> FileState) :
  (forall state node,
     (step state node).2 = state.2
     \/ exists message, (step state node).2 = state.2 ++ [message]) ->
  forall nodes state,
    exists new, (fold_left step nodes state).2 = state.2 ++ new
                /\ length new <= length nodes.
Proof.
  intros Hstep. induction nodes as [|node nodes IH]; intros state; cbn [fold_left].
  - exists []. now rewrite app_nil_r.
  - destruct (IH (step state node)) as (new & -> & Hlen).
    destruct (Hstep state node) as [->|[message ->]].
    + exists new. split; [reflexivity|cbn; lia].
    + exists (message :: new). rewrite <- app_assoc. split; [reflexivity|cbn; lia].
Qed.


End FileErrors.



Section Exclusion.

Variable source : SourceFile.
Variable options : ExtractionOptions.

Lemma isExcluded_prefix (prefix key : string) :
  exclude options = Some prefix -> prefix <> EmptyString ->
  startsWith key prefix = true -> isExcluded options key = true.
Proof.
  intros Hex Hne Hkey. unfold isExcluded. rewrite Hex. cbn.
  now rewrite (proj2 (String.eqb_neq _ _) Hne), Hkey.
Qed.

(** What begins with an excluded key is excluded. *)
Lemma isExcluded_extends (key key' : string) :
  isExcluded options key = true -> startsWith key' key = true ->
  isExcluded options key' = true.
Proof.
  unfold isExcluded. intros H Hkey. apply andb_prop in H as [-> H]. cbn.
  exact (prefix_trans _ _ _ H Hkey).
Qed.

(** The insertion of a key that is not excluded does not show at an
    excluded key. *)
Lemma insert_excluded_lookup (localization : Localization) (key value excluded : string) :
  isExcluded options excluded = true -> isExcluded options key = false ->
  lookup_key (insert localization key value).1 excluded = lookup_key localization excluded.
Proof.
  intros Hex Hkey. apply insert_frame. intros Hprefix.
  apply split_slash_prefix in Hprefix.
  rewrite (isExcluded_extends _ _ Hex Hprefix) in Hkey. discriminate.
Qed.

Lemma localize_step_excluded_lookup (excluded : string) (state : FileState) (call : Node) :
  isExcluded options excluded = true ->
  lookup_key (localize_step source options state call).1 excluded
  = lookup_key state.1 excluded.
Proof.
  intros Hex. destruct state as [localization errors]. rewrite localize_step_cases.
  destruct (extractFromLocalizeCall source call) as [[key value]|message]; [|reflexivity].
  destruct (isExcluded options key) eqn:Hkey; [reflexivity|].
  destruct (insert localization key value).2 eqn:Hout; [|reflexivity].
  now apply insert_excluded_lookup.
Qed.

Lemma command_step_excluded_lookup (excluded : string) (state : FileState) (command : Node) :
  isExcluded options excluded = true ->
  lookup_key (command_step source options state command).1 excluded
  = lookup_key state.1 excluded.
Proof.
  intros Hex. destruct state as [localization errors]. rewrite command_step_cases.
  destruct (extractFromLocalizedCommandCall source command) as [extracted|message];
    [|reflexivity].
  cbn zeta.
  assert (Hlabel : lookup_key
            (if isExcluded options (label extracted).1 then (localization, Ok tt)
             else insert localization (label extracted).1 (label extracted).2).1 excluded
          = lookup_key localization excluded).
  { destruct (isExcluded options (label extracted).1) eqn:Hkey; [reflexivity|].
    now apply insert_excluded_lookup. }
  match goal with |- context [match ?w.2 with _ => _ end] => destruct w.2 end;
    [|reflexivity].
  destruct (category extracted) as [[ck cl]|]; [|exact Hlabel]. cbn [fst snd].
  destruct (isExcluded options ck) eqn:Hck; [exact Hlabel|].
  match goal with |- context [match ?w with Ok _ => _ | Err _ => _ end] => destruct w end;
    [|exact Hlabel].
  cbn [fst]. now rewrite insert_excluded_lookup.
Qed.

Lemma fold_step_excluded_lookup (step : FileState -> Node -> FileState) (excluded : string) :
  (forall state node, lookup_key (step state node).1 excluded = lookup_key state.1 excluded) ->
  forall nodes state,
    lookup_key (fold_left step nodes state).1 excluded = lookup_key state.1 excluded.
Proof.
  intros Hstep. induction nodes as [|node nodes IH]; intros state; [reflexivity|].
  cbn [fold_left]. now rewrite IH.
Qed.

Lemma extractFromFile_excluded_lookup (excluded : string) (errors : list string) :
  isExcluded options excluded = true ->
  lookup_key (extractFromFile source options errors).1 excluded = None.
Proof.
  intros Hex. unfold extractFromFile.
  rewrite (fold_step_excluded_lookup (command_step source options))
    by (intros; now apply command_step_excluded_lookup).
  rewrite (fold_step_excluded_lookup (localize_step source options))
    by (intros; now apply localize_step_excluded_lookup).
  cbn [fst]. unfold lookup_key.
  pose proof (split_slash_nonempty excluded).
  destruct (split_slash excluded); [congruence|]. cbn. now rewrite lookup_empty.
Qed.

End Exclusion.

(** C8, as amended. With an [exclude] option that is not the empty string,
    a key that begins with it is excluded. A call of [nls.localize] with
    such a key changes neither the catalog nor the sink, and so does a
    command call when its label key and its category key, if it has one,
    are both such keys. No turn of either loop changes what the catalog
    holds at such a key, and the catalog of the file holds nothing there. *)
Theorem excluded_key_dropped (source : SourceFile) (options : ExtractionOptions)
    (prefix K : string) :
  exclude options = Some prefix ->
  prefix <> EmptyString ->
  startsWith K prefix = true ->
  isExcluded options K = true
  /\ (forall state call value,
        extractFromLocalizeCall source call = Ok (K, value) ->
        localize_step source options state call = state)
  /\ (forall state command extracted,
        extractFromLocalizedCommandCall source command = Ok extracted ->
        (label extracted).1 = K ->
        match category extracted with
        | Some category => startsWith category.1 prefix = true
        | None => True
        end ->
        command_step source options state command = state)
  /\ (forall state call,
        lookup_key (localize_step source options state call).1 K = lookup_key state.1 K)
  /\ (forall state command,
        lookup_key (command_step source options state command).1 K = lookup_key state.1 K)
  /\ (forall errors, lookup_key (extractFromFile source options errors).1 K = None).
Proof.
  intros Hex Hne HK.
  pose proof (isExcluded_prefix options prefix K Hex Hne HK) as Hexcluded.
  split; [exact Hexcluded|].
  split; [|split; [|split; [|split]]].
  - intros [localization errors] call value Hcall.
    now rewrite localize_step_cases, Hcall, Hexcluded.
  - intros [localization errors] command extracted Hcommand Hlabel Hcategory.
    rewrite command_step_cases, Hcommand. cbn zeta. rewrite Hlabel, Hexcluded. cbn [fst snd].
    destruct (category extracted) as [[ck cl]|]; [|reflexivity]. cbn [fst snd] in *.
    now rewrite (isExcluded_prefix options prefix ck Hex Hne Hcategory).
  - intros state call. now apply localize_step_excluded_lookup.
  - intros state command. now apply command_step_excluded_lookup.
  - intros errors. now apply extractFromFile_excluded_lookup.
Qed.

(** C8, the witness: the keys under [theia/] excluded, and a file with one
    excluded and one other call. *)
Lemma excluded_key_dropped_witness :
  let options := Sample.options (Some "theia/") in
  let source :=
    Sample.file "src/a.ts"
      [Sample.localize 10 [Sample.literal 23 "theia/a"; Sample.literal 34 "v"];
       Sample.localize 100 [Sample.literal 113 "vscode/a"; Sample.literal 125 "w"]] in
  isExcluded options "theia/a" = true
  /\ lookup_key (extractFromFile source options []).1 "theia/a" = None
  /\ lookup_key (extractFromFile source options []).1 "vscode/a" = Some (Str "w").
Proof.
  cbn zeta.
  destruct (excluded_key_dropped
              (Sample.file "src/a.ts"
                 [Sample.localize 10 [Sample.literal 23 "theia/a"; Sample.literal 34 "v"];
                  Sample.localize 100
                    [Sample.literal 113 "vscode/a"; Sample.literal 125 "w"]])
              (Sample.options (Some "theia/")) "theia/" "theia/a"
              eq_refl ltac:(discriminate) eq_refl)
    as (Hexcluded & _ & _ & _ & _ & Hfile).
  split; [exact Hexcluded|]. split; [apply Hfile|]. vm_compute. reflexivity.
Defined.

(** C8, the counterexample: with the empty string for [exclude] every key
    begins with the prefix, and none is dropped. *)
Lemma empty_exclude_drops_nothing :
  let options := Sample.options (Some EmptyString) in
  let call := Sample.localize 10 [Sample.literal 23 "a"; Sample.literal 28 "v"] in
  let source := Sample.file "src/a.ts" [call] in
  exclude options = Some EmptyString
  /\ extractFromLocalizeCall source call = Ok ("a", "v")
  /\ startsWith "a" EmptyString = true
  /\ isExcluded options "a" = false
  /\ lookup_key (extractFromFile source options []).1 "a" = Some (Str "v").
Proof. cbn zeta. repeat split; vm_compute; reflexivity. Qed.

(** * Proofs: aggregation *)

Lemma deepmerge_entry_Obj (a b : Localization) :
  deepmerge_entry (Obj a) (Obj b) = Obj (deepmerge a b).
Proof. reflexivity. Qed.

(** The merge, key by key. *)
Lemma deepmerge_lookup (target source : Localization) (k : string) :
  deepmerge target source !! k =
  match target !! k, source !! k with
  | Some (Obj a), Some (Obj b) => Some (Obj (deepmerge a b))
  | _, Some y => Some y
  | x, None => x
  end.
Proof.
  unfold deepmerge at 1. rewrite lookup_union_with.
  destruct (target !! k) as [[s|a]|], (source !! k) as [[s'|b]|]; reflexivity.
Qed.

Lemma deepmerge_dom (target source : Localization) :
  dom (deepmerge target source) = dom target ∪ dom source.
Proof.
  apply set_eq. intros k. rewrite elem_of_union, !elem_of_dom, deepmerge_lookup.
  destruct (target !! k) as [[s|a]|], (source !! k) as [[s'|b]|];
    rewrite <- ?not_eq_None_Some; split; intros H; try tauto; try (left; congruence);
    try (right; congruence); try congruence; destruct H; congruence.
Qed.

(** C5. The merge of two catalogs always has a result. It has the keys of
    both; where both hold a nested catalog the result holds their merge,
    and otherwise it holds the value of the later operand when that has
    the key and the value of the earlier one when it has not. Merging
    [{a: 1, b: {c: 2}}] over [{a: 0, b: {d: 3}}] gives
    [{a: 1, b: {c: 2, d: 3}}]. In merge mode the catalog written is the
    merge of the catalog found in the output file, as the earlier operand,
    and the catalog extracted, as the later one; the catalog extracted is
    itself the merge, file after file, of the catalogs of the files. *)
Theorem deepmerge_layers (target source : Localization) :
  dom (deepmerge target source) = dom target ∪ dom source
  /\ (forall k,
        deepmerge target source !! k =
        match target !! k, source !! k with
        | Some (Obj a), Some (Obj b) => Some (Obj (deepmerge a b))
        | _, Some later => Some later
        | earlier, None => earlier
        end)
  /\ deepmerge {[ "a" := Str "0"; "b" := Obj {[ "d" := Str "3" ]} ]}
               {[ "a" := Str "1"; "b" := Obj {[ "c" := Str "2" ]} ]}
     = {[ "a" := Str "1"; "b" := Obj {[ "c" := Str "2"; "d" := Str "3" ]} ]}
  /\ (forall options files eol,
        written_catalog (extract options files (Some target) eol)
        = if merge options then deepmerge target (extract_files options files).1
          else (extract_files options files).1)
  /\ (forall options files eol,
        written_catalog (extract options files None eol) = (extract_files options files).1)
  /\ (forall options files file,
        (extract_files options (files ++ [file])).1
        = deepmerge (extract_files options files).1
            (extractFromFile file options (extract_files options files).2).1).
Proof.
  split; [apply deepmerge_dom|].
  split; [apply deepmerge_lookup|].
  split; [vm_compute; reflexivity|].
  split; [|split].
  - intros options files eol. unfold extract.
    destruct (extract_files options files) as [localization errors]. reflexivity.
  - intros options files eol. unfold extract.
    destruct (extract_files options files) as [localization errors]. reflexivity.
  - intros options files file. unfold extract_files. rewrite fold_left_app. cbn [fold_left].
    match goal with |- context [fold_left ?f files ?s] => destruct (fold_left f files s) end.
    cbn [fst snd]. now destruct (extractFromFile file options _).
Qed.

(** * Further properties: string literal decoding *)

Lemma unescapeMap_single (c : ascii) (replace : string) :
  record_get unescapeMap (chr c) = Some replace -> exists meaning, replace = chr meaning.
Proof.
  unfold unescapeMap. cbn [record_get].
  repeat match goal with
  | |- context [String.eqb ?a (chr c)] => destruct (String.eqb a (chr c))
  end; intros [= <-]; solve [eexists; reflexivity].
Qed.

Lemma unescape_length_le (n : nat) :
  forall s, String.length s <= n -> String.length (unescape s) <= String.length s.
Proof.
  induction n as [|n IH]; intros s Hn.
  - destruct s; cbn in *; lia.
  - destruct s as [|c rest]; [cbn; lia|]. cbn [unescape]. cbn [String.length] in Hn.
    assert (Hrest : String.length (unescape rest) <= String.length rest) by (apply IH; lia).
    destruct (Ascii.eqb c backslash); [|cbn [String.length]; lia].
    destruct rest as [|c2 rest']; [cbn; lia|].
    destruct (record_get unescapeMap (chr c2)) as [replace|] eqn:Hmap;
      [|cbn [String.length] in *; lia].
    destruct (unescapeMap_single c2 replace Hmap) as [meaning ->].
    cbn [String.length] in *.
    assert (String.length (unescape rest') <= String.length rest') by (apply IH; lia).
    change (chr meaning +:+ unescape rest') with (String meaning (unescape rest')).
    cbn [String.length]. lia.
Qed.

Lemma unescape_length_lt (s : string) :
  escape_free s = false -> String.length (unescape s) < String.length s.
Proof.
  induction s as [|c rest IH]; [discriminate|].
  cbn [escape_free unescape]. intros Hfree.
  destruct (Ascii.eqb c backslash) eqn:Hc.
  - destruct rest as [|c2 rest']; [discriminate|].
    destruct (record_get unescapeMap (chr c2)) as [replace|] eqn:Hmap.
    + destruct (unescapeMap_single c2 replace Hmap) as [meaning ->].
      change (chr meaning +:+ unescape rest') with (String meaning (unescape rest')).
      pose proof (unescape_length_le _ rest' (le_n _)). cbn [String.length]. lia.
    + cbn [andb negb] in Hfree.
      rewrite bool_decide_eq_false_2 in Hfree by (intros [? ?]; discriminate).
      cbn [andb negb] in Hfree. specialize (IH Hfree). cbn [String.length] in *. lia.
  - assert (escape_free rest = false) as Hrest.
    { destruct rest; [discriminate|]. exact Hfree. }
    specialize (IH Hrest). cbn [String.length]. lia.
Qed.

(** X1. Decoding never makes a string longer. It keeps the length exactly
    when no recognised escape sequence starts anywhere in the string, and
    these are exactly the strings it leaves as they are. *)
Theorem unescapeString_length (s : string) :
  String.length (unescapeString s) <= String.length s
  /\ (String.length (unescapeString s) = String.length s <-> escape_free s = true)
  /\ (unescapeString s = s <-> escape_free s = true).
Proof.
  rewrite unescapeString_unescape.
  assert (Hfree : escape_free s = true -> unescape s = s) by apply unescape_escape_free.
  assert (Hlen : String.length (unescape s) = String.length s -> escape_free s = true).
  { intros Heq. destruct (escape_free s) eqn:Hs; [reflexivity|].
    pose proof (unescape_length_lt s Hs). lia. }
  split; [apply (unescape_length_le _ s (le_n _))|]. split; split.
  - exact Hlen.
  - intros H. now rewrite (Hfree H).
  - intros H. apply Hlen. now rewrite H.
  - exact Hfree.
Qed.

Lemma unescape_app (n : nat) :
  forall s t,
    String.length s <= n ->
    ends_with_backslash s = false ->
    unescape (s +:+ t) = unescape s +:+ unescape t.
Proof.
  induction n as [|n IH]; intros s t Hn Hend.
  - destruct s; [reflexivity|cbn in Hn; lia].
  - destruct s as [|c rest]; [reflexivity|]. cbn [String.length] in Hn.
    rewrite append_cons. cbn [unescape].
    destruct (Ascii.eqb c backslash) eqn:Hc.
    + destruct rest as [|c2 rest']; [cbn in Hend; congruence|].
      rewrite append_cons.
      destruct (record_get unescapeMap (chr c2)) as [replace|].
      * rewrite (IH rest' t); [now rewrite append_assoc|cbn in Hn; lia|].
        destruct rest'; [reflexivity|exact Hend].
      * rewrite <- append_cons. rewrite (IH (String c2 rest') t); [reflexivity|lia|].
        exact Hend.
    + rewrite (IH rest t); [reflexivity|lia|].
      destruct rest; [reflexivity|exact Hend].
Qed.

(** X2. Decoding works piece by piece: a string cut after any character
    but a backslash decodes to the decoded pieces put together. *)
Theorem unescapeString_app (s t : string) :
  ends_with_backslash s = false ->
  unescapeString (s +:+ t) = unescapeString s +:+ unescapeString t.
Proof.
  intros Hend. rewrite !unescapeString_unescape. now apply (unescape_app _ s t (le_n _)).
Qed.

(** X2, the witness: a text with an escape in each piece. *)
Lemma unescapeString_app_witness :
  unescapeString ((String backslash "tone") +:+ (String backslash "ntwo"))
  = unescapeString (String backslash "tone") +:+ unescapeString (String backslash "ntwo").
Proof. apply unescapeString_app. reflexivity. Defined.

(** Cut after a backslash, the pieces decode differently: the backslash
    and the [n] after the cut are an escape only when read together. *)
Example unescapeString_app_after_backslash :
  unescapeString (chr backslash +:+ "n") = chr newline
  /\ unescapeString (chr backslash) +:+ unescapeString "n" = String backslash "n".
Proof. split; reflexivity. Qed.

(** * Further properties: insertion into the catalog *)

Section InsertMore.

Variables key value : string.



End InsertMore.










(** Keys one of whose ways begins the other do not commute: the second
    call throws, and which value stays depends on the order. *)
Example insert_order_matters :
  lookup_key (insert (insert ∅ "a" "1").1 "a/b" "2").1 "a" = Some (Str "1")
  /\ lookup_key (insert (insert ∅ "a/b" "2").1 "a" "1").1 "a/b" = Some (Str "2")
  /\ (insert (insert ∅ "a" "1").1 "a/b" "2").1 <> (insert (insert ∅ "a/b" "2").1 "a" "1").1.
Proof.
  split; [reflexivity|]. split; [reflexivity|].
  intros Heq. apply (f_equal (fun l => lookup_key l "a")) in Heq. discriminate Heq.
Qed.

(** * Further properties: collector and extractors *)

Lemma collect_Forall (fn : Node -> bool) (n : Node) :
  Forall (fun node => fn node = true) (collect n fn).
Proof.
  induction n as [n IH] using Node_children_ind.
  rewrite collect_unfold. destruct (fn n) eqn:Hfn; [repeat constructor; exact Hfn|].
  induction (forEachChild n) as [|c l IHl]; [constructor|].
  apply Forall_cons in IH as [Hc Hl]. cbn [flat_map]. apply Forall_app. auto.
Qed.

(** X7. Whatever the predicate, [collect] returns only nodes that match
    it. The nodes of the first loop of [extractFromFile] are therefore
    calls whose callee reads [nls.localize], those of the second loop calls
    whose callee reads [Command.toLocalizedCommand], and no node is in
    both: neither extractor ever meets a node that is not a call. *)
Theorem collect_only_matches (n : Node) :
  (forall fn node, node ∈ collect n fn -> fn node = true)
  /\ (forall node,
        node ∈ collect n isLocalizeCall ->
        (exists info callee args,
           node = CallExpression info callee args
           /\ getText (node_info callee) = "nls.localize")
        /\ node ∉ collect n isCommandLocalizeUtility)
  /\ (forall node,
        node ∈ collect n isCommandLocalizeUtility ->
        (exists info callee args,
           node = CallExpression info callee args
           /\ getText (node_info callee) = "Command.toLocalizedCommand")
        /\ node ∉ collect n isLocalizeCall).
Proof.
  assert (Hall : forall fn node, node ∈ collect n fn -> fn node = true).
  { intros fn node Hin. pose proof (collect_Forall fn n) as H.
    rewrite Forall_forall in H. now apply H. }
  split; [exact Hall|]. split; intros node Hin; apply Hall in Hin as Hfn.
  - destruct node as [info callee args| | | | |]; try discriminate. cbn in Hfn.
    apply String.eqb_eq in Hfn. split; [eauto|].
    intros Hin'. apply Hall in Hin'. cbn in Hin'. rewrite Hfn in Hin'. discriminate.
  - destruct node as [info callee args| | | | |]; try discriminate. cbn in Hfn.
    apply String.eqb_eq in Hfn. split; [eauto|].
    intros Hin'. apply Hall in Hin'. cbn in Hin'. rewrite Hfn in Hin'. discriminate.
Qed.

(** X7, a witness: a file with one call of each kind. *)
Lemma collect_only_matches_witness :
  let a := Sample.localize 10 [Sample.literal 23 "k"; Sample.literal 28 "v"] in
  let b := Sample.toLocalizedCommand 100 [Sample.object 128 []] in
  let tree := root (Sample.file "src/a.ts" [a; b]) in
  isLocalizeCall a = true /\ a ∉ collect tree isCommandLocalizeUtility.
Proof.
  cbn zeta.
  destruct (collect_only_matches
              (root (Sample.file "src/a.ts"
                       [Sample.localize 10 [Sample.literal 23 "k"; Sample.literal 28 "v"];
                        Sample.toLocalizedCommand 100 [Sample.object 128 []]])))
    as (Hall & Hlocalize & _).
  assert (Sample.localize 10 [Sample.literal 23 "k"; Sample.literal 28 "v"]
          ∈ collect (root (Sample.file "src/a.ts"
                             [Sample.localize 10
                                [Sample.literal 23 "k"; Sample.literal 28 "v"];
                              Sample.toLocalizedCommand 100 [Sample.object 128 []]]))
              isLocalizeCall) as Hin by (vm_compute; left).
  split; [exact (Hall _ _ Hin) | exact (proj2 (Hlocalize _ Hin))].
Defined.

Section PropertyLoop.

Variable source : SourceFile.

Lemma property_loop_app (before after : list Node) (propertyMap : gmap string string) :
  property_loop source (before ++ after) propertyMap
  = let* propertyMap' := property_loop source before propertyMap in
    property_loop source after propertyMap'.
Proof.
  revert propertyMap. induction before as [|property before IH]; intros propertyMap;
    [reflexivity|].
  cbn [app property_loop].
  destruct (property_name property) as [name|]; [|apply IH].
  destruct property as [| | | |pinfo pname pinit|]; try reflexivity.
  destruct name as [| |iinfo text| | |]; try reflexivity.
  destruct (includes relevantProps text); [|apply IH].
  destruct (extractString source pinit); [apply IH|reflexivity].
Qed.

(** Members the loop passes over make no difference to it. *)
Lemma property_loop_ignored (properties : list Node) (propertyMap : gmap string string) :
  property_loop source (filter (fun p => ignored_property p = false) properties) propertyMap
  = property_loop source properties propertyMap.
Proof.
  revert propertyMap. induction properties as [|property properties IH]; intros propertyMap;
    [reflexivity|].
  rewrite filter_cons.
  destruct property as [ci ce ca|si st|ii it|oi op|pinfo pname pinit|oinfo [oname|] och];
    cbn [ignored_property property_name];
    try (rewrite decide_False by discriminate; cbn [property_loop property_name];
         apply IH);
    try (rewrite decide_True by reflexivity; reflexivity).
  destruct pname as [| |iinfo text| | |];
    try (rewrite decide_True by reflexivity; reflexivity).
  cbn [property_loop property_name].
  destruct (includes relevantProps text) eqn:Hrel; cbn [negb].
  - rewrite decide_True by reflexivity. cbn [property_loop property_name]. rewrite Hrel.
    destruct (extractString source pinit); [apply IH|reflexivity].
  - rewrite decide_False by discriminate. apply IH.
Qed.

(** The loop returns exactly on the lists of members it accepts. *)
Lemma property_loop_accepts (properties : list Node) :
  forall propertyMap,
    (exists propertyMap', property_loop source properties propertyMap = Ok propertyMap')
    <-> forallb accepted_property properties = true.
Proof.
  induction properties as [|property properties IH]; intros propertyMap.
  - cbn. split; eauto.
  - cbn [property_loop forallb]. unfold accepted_property at 1, ignored_property.
    destruct (property_name property) as [name|] eqn:Hname.
    + destruct property as [| | | |pinfo pname pinit|];
        try (cbn; split; [intros [? H]; discriminate H | discriminate]).
      cbn in Hname. injection Hname as <-.
      destruct pname as [| |iinfo text| | |];
        try (cbn; split; [intros [? H]; discriminate H | discriminate]).
      destruct (includes relevantProps text) eqn:Hrel; cbn [negb orb andb].
      * destruct pinit; cbn [extractString isStringLiteral bind andb];
          try (split; [intros [? H]; discriminate H | discriminate]).
        apply IH.
      * apply IH.
    + cbn [orb andb]. apply IH.
Qed.

End PropertyLoop.

(** X8. Members of the object literal that the property loop passes over
    (members without a name, such as a spread, and assignments to
    identifiers other than [id], [label] and [category], whatever their
    initializer) make no difference: the call without them is extracted
    from, or thrown at, exactly as the call with them. *)
Theorem extractFromLocalizedCommandCall_ignores (source : SourceFile) (info : NodeInfo)
    (callee : Node) (oinfo : NodeInfo) (properties more : list Node) :
  extractFromLocalizedCommandCall source
    (CallExpression info callee
       (ObjectLiteralExpression oinfo
          (filter (fun p => ignored_property p = false) properties) :: more))
  = extractFromLocalizedCommandCall source
      (CallExpression info callee (ObjectLiteralExpression oinfo properties :: more)).
Proof.
  cbn [extractFromLocalizedCommandCall]. rewrite property_loop_ignored. reflexivity.
Qed.

(** X8 on an example: a handler and a spread next to [id] and [label]. *)
Example extractFromLocalizedCommandCall_ignores_handler :
  let source := Sample.file "src/a.ts" [] in
  let handler :=
    PropertyAssignment (Sample.at_ 50 "execute: () => run()")
      (Sample.identifier 50 "execute") (OtherNode (Sample.at_ 59 "() => run()") None []) in
  let spread := OtherNode (Sample.at_ 70 "...base") None [Sample.identifier 73 "base"] in
  extractFromLocalizedCommandCall source
    (Sample.toLocalizedCommand 0
       [Sample.object 28
          [spread; Sample.assign 30 "id" "K"; handler; Sample.assign 40 "label" "L"]])
  = Ok {| label := ("K", "L"); category := None |}.
Proof. reflexivity. Qed.

(** X9. The first member of the object literal that the property loop
    does not accept fails the whole call, whatever the other arguments and
    the members after it: a named member that is not a property assignment,
    a property assignment whose name is not an identifier, each with a
    message placed at that member, or an assignment to [id], [label] or
    [category] of something other than a string literal, with a message
    placed at the initializer. *)
Theorem extractFromLocalizedCommandCall_member_errors (source : SourceFile)
    (info : NodeInfo) (callee : Node) (oinfo : NodeInfo)
    (before : list Node) (bad : Node) (after more : list Node) :
  forallb accepted_property before = true ->
  let call :=
    CallExpression info callee
      (ObjectLiteralExpression oinfo (before ++ bad :: after) :: more) in
  (forall name,
     property_name bad = Some name ->
     isPropertyAssignment bad = false ->
     extractFromLocalizedCommandCall source call
     = Err (buildErrorMessage source
              ("Only property assignments in " +:+ quoted_toLocalizedCommand
                 +:+ " are allowed") bad))
  /\ (forall pinfo name initializer,
        bad = PropertyAssignment pinfo name initializer ->
        isIdentifier name = false ->
        extractFromLocalizedCommandCall source call
        = Err (buildErrorMessage source
                 ("Only identifiers are allowed in " +:+ quoted_toLocalizedCommand) bad))
  /\ (forall pinfo iinfo text initializer,
        bad = PropertyAssignment pinfo (Identifier iinfo text) initializer ->
        includes relevantProps text = true ->
        isStringLiteral initializer = false ->
        extractFromLocalizedCommandCall source call
        = Err (buildErrorMessage source
                 ("'" +:+ getText (node_info initializer) +:+ "' is not a string constant")
                 initializer)).
Proof.
  intros Hbefore. cbn zeta.
  destruct (proj2 (property_loop_accepts source before ∅) Hbefore) as [propertyMap Hmap].
  assert (Hcall : forall message,
    property_loop source (bad :: after) propertyMap = Err message ->
    extractFromLocalizedCommandCall source
      (CallExpression info callee
         (ObjectLiteralExpression oinfo (before ++ bad :: after) :: more))
    = Err message).
  { intros message Hbad. cbn [extractFromLocalizedCommandCall].
    rewrite property_loop_app, Hmap. cbn [bind]. now rewrite Hbad. }
  split; [|split].
  - intros name Hname Hkind. apply Hcall. cbn [property_loop]. rewrite Hname.
    destruct bad; try reflexivity. discriminate Hkind.
  - intros pinfo name initializer -> Hname. apply Hcall. cbn [property_loop property_name].
    destruct name; try reflexivity. discriminate Hname.
  - intros pinfo iinfo text initializer -> Hrel Hinit. apply Hcall.
    cbn [property_loop property_name]. rewrite Hrel.
    now rewrite (extractString_other source initializer Hinit).
Qed.

(** X9, the witness: a method after an [id], and a [label] that is not a
    literal. *)
Lemma extractFromLocalizedCommandCall_member_errors_witness :
  let source := Sample.file "src/a.ts" [] in
  let method :=
    OtherNode (Sample.at_ 85 "run() {}") (Some (Sample.identifier 85 "run")) [] in
  let label_of_variable :=
    PropertyAssignment (Sample.at_ 90 "label: text") (Sample.identifier 90 "label")
      (Sample.identifier 97 "text") in
  extractFromLocalizedCommandCall source
    (Sample.toLocalizedCommand 0
       [Sample.object 28 ([Sample.assign 30 "id" "K"] ++ method :: [])])
  = Err ("src/a.ts(2,6): Only property assignments in " +:+ quoted_toLocalizedCommand
           +:+ " are allowed")
  /\ extractFromLocalizedCommandCall source
       (Sample.toLocalizedCommand 0
          [Sample.object 28 ([Sample.assign 30 "id" "K"] ++ label_of_variable :: [])])
     = Err "src/a.ts(2,18): 'text' is not a string constant".
Proof.
  cbn zeta. split.
  - destruct (extractFromLocalizedCommandCall_member_errors (Sample.file "src/a.ts" [])
                (Sample.at_ 0 "Command.toLocalizedCommand(...)")
                (Sample.access 0 "Command" "toLocalizedCommand") (Sample.at_ 28 "{ ... }")
                [Sample.assign 30 "id" "K"]
                (OtherNode (Sample.at_ 85 "run() {}") (Some (Sample.identifier 85 "run")) [])
                [] [] eq_refl) as (Hkind & _ & _).
    apply (Hkind (Sample.identifier 85 "run")); reflexivity.
  - destruct (extractFromLocalizedCommandCall_member_errors (Sample.file "src/a.ts" [])
                (Sample.at_ 0 "Command.toLocalizedCommand(...)")
                (Sample.access 0 "Command" "toLocalizedCommand") (Sample.at_ 28 "{ ... }")
                [Sample.assign 30 "id" "K"]
                (PropertyAssignment (Sample.at_ 90 "label: text")
                   (Sample.identifier 90 "label") (Sample.identifier 97 "text"))
                [] [] eq_refl) as (_ & _ & Hliteral).
    apply (Hliteral (Sample.at_ 90 "label: text") (Sample.at_ 90 "label") "label"
             (Sample.identifier 97 "text")); reflexivity.
Defined.

(** X10. The command calls the extractor accepts are exactly the calls
    whose first argument is an object literal all of whose members the
    property loop accepts, whose second and third arguments, when there,
    are string literals, whose label key (the second argument, or [id] when
    that is missing or decodes to the empty string) is not empty, and whose
    [label] is there and not empty. Arguments after the third are not
    looked at. *)
Theorem extractFromLocalizedCommandCall_accepts (source : SourceFile) (node : Node) :
  (exists extracted, extractFromLocalizedCommandCall source node = Ok extracted)
  <-> exists info callee oinfo properties more,
        node = CallExpression info callee (ObjectLiteralExpression oinfo properties :: more)
        /\ forallb accepted_property properties = true
        /\ forallb isStringLiteral (take 2 more) = true
        /\ truthy (label_key_of properties more) = true
        /\ truthy (property_text properties "label") = true.
Proof.
  split.
  - intros [extracted H].
    destruct (extractFromLocalizedCommandCall_ok_shape source node extracted H)
      as (info & callee & oinfo & properties & more & propertyMap & -> & Hloop).
    exists info, callee, oinfo, properties, more. split; [reflexivity|].
    split; [apply (property_loop_accepts source properties ∅); eauto|].
    rewrite (extractFromLocalizedCommandCall_unfold source _ _ _ _ _ _ Hloop) in H.
    cbn zeta in H.
    assert (Hargs : forallb isStringLiteral (take 2 more) = true
                    /\ match more with
                       | arg1 :: _ =>
                           let* explicit := extractString source arg1 in
                           Ok (or_else explicit (property_text properties "id"))
                       | [] => Ok (property_text properties "id")
                       end = Ok (label_key_of properties more)).
    { destruct more as [|arg1 [|arg2 rest]]; cbn [take forallb] in *.
      - auto.
      - destruct arg1; try discriminate H. auto.
      - destruct arg1; try discriminate H. cbn [extractString bind] in H.
        destruct arg2; try discriminate H. auto. }
    destruct Hargs as [Hliterals Hkey]. rewrite Hkey in H. cbn [bind] in H.
    match type of H with
    | bind ?ck _ = _ => destruct ck as [categoryKey|]; [|discriminate]
    end.
    cbn [bind] in H.
    destruct (truthy (label_key_of properties more)); [|discriminate].
    destruct (truthy (property_text properties "label")); [|discriminate].
    auto.
  - intros (info & callee & oinfo & properties & more & -> & Hmembers & Hargs & Hkey & Hlabel).
    destruct (proj2 (property_loop_accepts source properties ∅) Hmembers)
      as [propertyMap Hloop].
    rewrite (extractFromLocalizedCommandCall_unfold source _ _ _ _ _ _ Hloop). cbn zeta.
    destruct more as [|arg1 [|arg2 rest]]; cbn [take forallb] in Hargs.
    + cbn [bind]. cbn [label_key_of] in Hkey. rewrite Hkey, Hlabel. cbn. eauto.
    + destruct arg1; try discriminate Hargs. cbn [extractString bind].
      cbn [label_key_of] in Hkey. rewrite Hkey, Hlabel. cbn. eauto.
    + destruct arg1; try discriminate Hargs. destruct arg2; try discriminate Hargs.
      cbn [extractString bind]. cbn [label_key_of] in Hkey. rewrite Hkey, Hlabel.
      cbn [negb]. eauto.
Qed.

(** X10 on examples: no label, an empty [id] with no explicit key, and a
    fourth argument that is not a literal. *)
Example extractFromLocalizedCommandCall_accepts_examples :
  let source := Sample.file "src/a.ts" [] in
  let call properties more := Sample.toLocalizedCommand 0 (Sample.object 28 properties :: more) in
  extractFromLocalizedCommandCall source (call [Sample.assign 30 "id" "K"] [])
  = Err "src/a.ts(1,1): No default label found"
  /\ extractFromLocalizedCommandCall source
       (call [Sample.assign 30 "id" EmptyString; Sample.assign 40 "label" "L"] [])
     = Err "src/a.ts(1,1): No label key found"
  /\ extractFromLocalizedCommandCall source
       (call [Sample.assign 40 "label" "L"]
          [Sample.literal 60 "K"; Sample.literal 66 "C"; Sample.identifier 72 "x"])
     = Ok {| label := ("K", "L"); category := None |}.
Proof. repeat split. Qed.

(** * Further properties: per-file extraction and the run *)

Section Sink.

Variable source : SourceFile.
Variable options : ExtractionOptions.

Lemma catch_sink (errors : list string) (attempt : Localization * Result unit) :
  catch errors attempt = ((catch [] attempt).1, errors ++ (catch [] attempt).2).
Proof. destruct attempt as [l [[]|message]]; cbn; now rewrite ?app_nil_r. Qed.

Lemma localize_step_sink (localization : Localization) (errors : list string) (call : Node) :
  localize_step source options (localization, errors) call
  = ((localize_step source options (localization, []) call).1,
     errors ++ (localize_step source options (localization, []) call).2).
Proof. unfold localize_step. apply catch_sink. Qed.

Lemma command_step_sink (localization : Localization) (errors : list string)
    (command : Node) :
  command_step source options (localization, errors) command
  = ((command_step source options (localization, []) command).1,
     errors ++ (command_step source options (localization, []) command).2).
Proof. unfold command_step. apply catch_sink. Qed.

Lemma fold_step_sink (step : FileState -> Node -> FileState) :
  (forall l e c, step (l, e) c = ((step (l, []) c).1, e ++ (step (l, []) c).2)) ->
  forall nodes l e,
    fold_left step nodes (l, e)
    = ((fold_left step nodes (l, [])).1, e ++ (fold_left step nodes (l, [])).2).
Proof.
  intros Hstep. induction nodes as [|c nodes IH]; intros l e; cbn [fold_left].
  - now rewrite app_nil_r.
  - rewrite (Hstep l e c). rewrite IH.
    destruct (step (l, []) c) as [l1 e1] eqn:Hc. cbn [fst snd].
    rewrite (IH l1 e1). cbn [fst snd]. now rewrite app_assoc.
Qed.

Lemma extractFromFile_sink (errors : list string) :
  extractFromFile source options errors
  = ((extractFromFile source options []).1,
     errors ++ (extractFromFile source options []).2).
Proof.
  unfold extractFromFile.
  rewrite (fold_step_sink (localize_step source options) localize_step_sink _ ∅ errors).
  rewrite (fold_step_sink (command_step source options) command_step_sink).
  destruct (fold_left (localize_step source options) _ (∅, [])) as [l1 e1]. cbn [fst snd].
  rewrite (fold_step_sink (command_step source options) command_step_sink _ l1 e1).
  cbn [fst snd]. now rewrite app_assoc.
Qed.

End Sink.

(** X11. The error sink is only ever appended to, and nothing is read
    from it: the catalog of a file does not depend on the messages already
    in the sink, and the sink comes back as it was with the messages of the
    file after it. *)
Theorem extractFromFile_sink_append (source : SourceFile) (options : ExtractionOptions)
    (errors : list string) :
  (extractFromFile source options errors).1 = (extractFromFile source options []).1
  /\ (extractFromFile source options errors).2
     = errors ++ (extractFromFile source options []).2.
Proof. rewrite extractFromFile_sink. split; reflexivity. Qed.


Section Origin.

Variable source : SourceFile.
Variable options : ExtractionOptions.








End Origin.





(** X13 on an example: two files with a faulty call each, and a log. *)
Example extract_two_files_log :
  let file1 := Sample.file "src/a.ts" [Sample.localize 10 [Sample.literal 23 "k"]] in
  let file2 :=
    Sample.file "src/b.ts"
      [Sample.localize 90 [Sample.literal 103 "a"; Sample.literal 108 "v"];
       Sample.localize 170 []] in
  let options :=
    {| opt_root := "."; output := "out.json"; exclude := None; logs := Some "errors.log";
       pattern := None; merge := false |} in
  let written := extract options [file1; file2] None (chr newline) in
  written_log written
  = Some ("src/a.ts(1,11): Localize call needs at least 2 arguments" +:+ chr newline
            +:+ "src/b.ts(3,11): Localize call needs at least 2 arguments")
  /\ lookup_key (written_catalog written) "a" = Some (Str "v").
Proof. cbn zeta. split; vm_compute; reflexivity. Qed.



(** X15. Exclusion goes down the catalog: with a key excluded, every key
    that begins with it is excluded, and so is everything below it. With no
    [exclude] option, or with the empty string for one, no key is
    excluded. *)
Theorem isExcluded_downward (options : ExtractionOptions) :
  (forall key key',
     isExcluded options key = true -> startsWith key' key = true ->
     isExcluded options key' = true)
  /\ (forall key below,
        isExcluded options key = true -> isExcluded options (key +:+ "/" +:+ below) = true)
  /\ (exclude options = None \/ exclude options = Some EmptyString ->
      forall key, isExcluded options key = false).
Proof.
  split; [|split].
  - apply isExcluded_extends.
  - intros key below Hkey. apply (isExcluded_extends options key); [exact Hkey|].
    apply prefix_append.
  - intros [Hnone|Hempty] key; unfold isExcluded; [rewrite Hnone|rewrite Hempty]; reflexivity.
Qed.

(** X15, a witness: [theia] excluded, and [theia/editor/save] with it. *)
Lemma isExcluded_downward_witness :
  isExcluded (Sample.options (Some "theia")) ("theia" +:+ "/" +:+ "editor/save") = true.
Proof.
  destruct (isExcluded_downward (Sample.options (Some "theia"))) as (_ & Hbelow & _).
  apply Hbelow. reflexivity.
Defined.

(** * Files without a message *)

Lemma insert_all_app (pairs pairs' : list (string * string)) :
  forall localization,
    insert_all localization (pairs ++ pairs')
    = ((insert_all (insert_all localization pairs).1 pairs').1,
       (insert_all localization pairs).2
       ++ (insert_all (insert_all localization pairs).1 pairs').2).
Proof.
  induction pairs as [|[key value] pairs IH]; intros localization.
  - cbn [app insert_all fst snd]. now destruct (insert_all localization pairs').
  - cbn [app insert_all]. destruct (insert localization key value) as [l1 outcome].
    rewrite IH. destruct (insert_all l1 pairs) as [l2 messages]. cbn [fst snd].
    now destruct outcome.
Qed.

Lemma insert_all_single (localization : Localization) (key value : string) :
  (insert localization key value).2 = Ok tt ->
  insert_all localization [(key, value)] = ((insert localization key value).1, []).
Proof.
  intros Hok. cbn [insert_all].
  destruct (insert localization key value) as [l1 outcome]. cbn [snd] in Hok.
  now rewrite Hok.
Qed.

Lemma no_message_added {A : Type} (errors new : list A) (message : A) :
  errors ++ message :: new <> errors.
Proof.
  intros Heq. apply (f_equal length) in Heq. rewrite length_app in Heq. cbn in Heq. lia.
Qed.

Lemma no_message_last {A : Type} (errors : list A) (message : A) :
  errors ++ [message] <> errors.
Proof. apply no_message_added. Qed.

Lemma kept_pairs_app (options : ExtractionOptions) (pairs pairs' : list (string * string)) :
  kept_pairs options (pairs ++ pairs') = kept_pairs options pairs ++ kept_pairs options pairs'.
Proof. apply List.filter_app. Qed.

Section Clean.

Variable source : SourceFile.
Variable options : ExtractionOptions.

(** A loop that left no message has inserted, in order, the pairs of its
    turns that are not excluded. *)
Lemma fold_step_clean (step : FileState -> Node -> FileState)
    (pairs_of : Node -> list (string * string)) :
  (forall state node,
     (step state node).2 = state.2
     \/ exists message, (step state node).2 = state.2 ++ [message]) ->
  (forall localization errors node,
     (step (localization, errors) node).2 = errors ->
     insert_all localization (kept_pairs options (pairs_of node))
     = ((step (localization, errors) node).1, [])) ->
  forall nodes localization errors,
    (fold_left step nodes (localization, errors)).2 = errors ->
    insert_all localization (kept_pairs options (flat_map pairs_of nodes))
    = ((fold_left step nodes (localization, errors)).1, []).
Proof.
  intros Hmono Hstep.
  induction nodes as [|node nodes IH]; intros localization errors Hclean;
    cbn [fold_left flat_map] in *.
  - reflexivity.
  - destruct (fold_step_errors step Hmono nodes (step (localization, errors) node))
      as (new & Hnew & _).
    destruct (Hmono (localization, errors) node) as [Hsame|[message Hmore]];
      cbn [snd] in *.
    + destruct (step (localization, errors) node) as [l1 e1] eqn:Hnode.
      cbn [snd] in Hsame. subst e1.
      rewrite kept_pairs_app, insert_all_app.
      rewrite (Hstep localization errors node) by now rewrite Hnode.
      rewrite Hnode. cbn [fst snd].
      now rewrite (IH l1 errors Hclean).
    + exfalso. rewrite Hnew, Hmore, <- app_assoc in Hclean.
      now apply no_message_added in Hclean.
Qed.

Lemma localize_step_clean (localization : Localization) (errors : list string)
    (call : Node) :
  (localize_step source options (localization, errors) call).2 = errors ->
  insert_all localization
    (kept_pairs options
       match extractFromLocalizeCall source call with
       | Ok extracted => [extracted]
       | Err _ => []
       end)
  = ((localize_step source options (localization, errors) call).1, []).
Proof.
  rewrite localize_step_cases.
  destruct (extractFromLocalizeCall source call) as [[key value]|message].
  - unfold kept_pairs. cbn [List.filter fst].
    destruct (isExcluded options key); cbn [negb]; [reflexivity|].
    destruct (insert localization key value).2 as [[]|message] eqn:Hinsert; cbn [fst snd].
    + intros _. now apply insert_all_single.
    + intros Hclean. now apply no_message_last in Hclean.
  - cbn [snd]. intros Hclean. now apply no_message_last in Hclean.
Qed.

Lemma command_step_clean (localization : Localization) (errors : list string)
    (command : Node) :
  (command_step source options (localization, errors) command).2 = errors ->
  insert_all localization
    (kept_pairs options
       match extractFromLocalizedCommandCall source command with
       | Ok extracted => label extracted :: option_list (category extracted)
       | Err _ => []
       end)
  = ((command_step source options (localization, errors) command).1, []).
Proof.
  rewrite command_step_cases.
  destruct (extractFromLocalizedCommandCall source command) as [extracted|message].
  2:{ cbn [snd]. intros Hclean. now apply no_message_last in Hclean. }
  cbn zeta. unfold kept_pairs.
  change (label extracted :: option_list (category extracted))
    with ([label extracted] ++ option_list (category extracted)).
  rewrite List.filter_app, insert_all_app.
  assert (Hcategory : forall l : Localization,
    (match category extracted with
     | Some category =>
         if isExcluded options category.1 then (l, errors)
         else match (insert l category.1 category.2).2 with
              | Ok _ => ((insert l category.1 category.2).1, errors)
              | Err message => (l, errors ++ [message])
              end
     | None => (l, errors)
     end).2 = errors ->
    insert_all l
      (List.filter (fun extracted0 => negb (isExcluded options extracted0.1))
         (option_list (category extracted)))
    = ((match category extracted with
        | Some category =>
            if isExcluded options category.1 then (l, errors)
            else match (insert l category.1 category.2).2 with
                 | Ok _ => ((insert l category.1 category.2).1, errors)
                 | Err message => (l, errors ++ [message])
                 end
        | None => (l, errors)
        end).1, [])).
  { intros l. unfold option_list.
    destruct (category extracted) as [[ck cl]|]; cbn [option_rect List.filter fst snd];
      [|reflexivity].
    destruct (isExcluded options ck); cbn [negb fst snd]; [reflexivity|].
    destruct (insert l ck cl).2 as [[]|message] eqn:Hinsert; cbn [fst snd].
    - intros _. now apply insert_all_single.
    - intros Hclean. now apply no_message_last in Hclean. }
  cbn [List.filter].
  destruct (isExcluded options (label extracted).1); cbn [negb fst snd].
  - intros Hclean. cbn [insert_all fst snd app]. now rewrite (Hcategory _ Hclean).
  - destruct (insert localization (label extracted).1 (label extracted).2).2
      as [[]|message] eqn:Hinsert.
    + intros Hclean. destruct (label extracted) as [lk lv]. cbn [fst snd] in *.
      rewrite (insert_all_single _ _ _ Hinsert). cbn [fst snd app].
      now rewrite (Hcategory _ Hclean).
    + cbn [snd]. intros Hclean. now apply no_message_last in Hclean.
Qed.

Lemma extractFromFile_clean_inserts (errors : list string) :
  (extractFromFile source options errors).2 = errors ->
  insert_all ∅ (kept_pairs options (extracted_pairs source))
  = ((extractFromFile source options errors).1, []).
Proof.
  unfold extractFromFile, extracted_pairs, localize_pairs, command_pairs. cbn zeta.
  set (calls := collect (root source) isLocalizeCall).
  set (commands := collect (root source) isCommandLocalizeUtility).
  intros Hclean.
  destruct (fold_left (localize_step source options) calls (∅, errors)) as [l1 e1] eqn:Hfirst.
  assert (Hmono1 : forall state node,
    (localize_step source options state node).2 = state.2
    \/ exists message, (localize_step source options state node).2 = state.2 ++ [message]).
  { intros state node. destruct (localize_step_errors source options state node)
      as [H|[message H]]; [now left|right]. exists message. now rewrite H. }
  destruct (fold_step_errors (localize_step source options) Hmono1 calls (∅, errors))
    as (new1 & Hnew1 & _).
  destruct (fold_step_errors (command_step source options)
              (command_step_errors source options) commands (l1, e1))
    as (new2 & Hnew2 & _).
  rewrite Hfirst in Hnew1. cbn [snd] in Hnew1, Hnew2.
  assert (e1 = errors) as ->.
  { rewrite Hnew2, Hnew1, <- app_assoc in Hclean.
    destruct new1 as [|message new1]; [now rewrite Hnew1, app_nil_r|].
    cbn [app] in Hclean. now apply no_message_added in Hclean. }
  rewrite kept_pairs_app, insert_all_app.
  rewrite (fold_step_clean (localize_step source options) _ Hmono1
             localize_step_clean calls ∅ errors) by now rewrite Hfirst.
  rewrite Hfirst. cbn [fst snd app].
  now rewrite (fold_step_clean (command_step source options) _
                 (command_step_errors source options)
                 command_step_clean commands l1 errors Hclean).
Qed.

End Clean.

(** X16. A file that adds no message has every one of its pairs that is
    not excluded in its catalog: the catalog is what the inserts of those
    pairs build from the empty catalog, the pairs of [nls.localize] first
    and the pairs of the commands after them, each list in the order of the
    file, and none of those inserts throws. *)
Theorem extractFromFile_clean (source : SourceFile) (options : ExtractionOptions)
    (errors : list string) :
  (extractFromFile source options errors).2 = errors ->
  insert_all ∅ (kept_pairs options (extracted_pairs source))
  = ((extractFromFile source options errors).1, []).
Proof. apply extractFromFile_clean_inserts. Qed.

(** X16, the witness: a call and a command with a category, the
    [theia] keys excluded. *)
Lemma extractFromFile_clean_witness :
  let source :=
    Sample.file "src/a.ts"
      [Sample.localize 10 [Sample.literal 23 "a/b"; Sample.literal 30 "v"];
       Sample.localize 50 [Sample.literal 63 "theia/x"; Sample.literal 70 "w"];
       Sample.toLocalizedCommand 100
         [Sample.object 128 [Sample.assign 130 "id" "c"; Sample.assign 140 "label" "L"]]] in
  insert_all ∅ (kept_pairs (Sample.options (Some "theia")) (extracted_pairs source))
  = ((extractFromFile source (Sample.options (Some "theia")) []).1, []).
Proof.
  cbn zeta. apply extractFromFile_clean. vm_compute. reflexivity.
Defined.

(** X16 needs its hypothesis: a command whose label cannot be inserted
    leaves its category out, though the category alone would go in. *)
Example label_conflict_skips_category :
  let source :=
    Sample.file "src/a.ts"
      [Sample.localize 10 [Sample.literal 23 "c/d"; Sample.literal 30 "v"];
       Sample.toLocalizedCommand 100
         [Sample.object 128
            [Sample.assign 130 "id" "c"; Sample.assign 140 "label" "L";
             Sample.assign 150 "category" "C"];
          Sample.literal 170 "c"; Sample.literal 180 "cat"]] in
  lookup_key (extractFromFile source (Sample.options None) []).1 "cat" = None
  /\ lookup_key (insert_all ∅ (kept_pairs (Sample.options None) (extracted_pairs source))).1
       "cat" = Some (Str "C").
Proof. cbn zeta. split; vm_compute; reflexivity. Qed.
